(** * easykv / vault: discovery walk and value flattening

    A shallow embedding of [vault/client.go] (functions [GetValues],
    [walkTree], [isKV] and [flatten]) together with the part of Go's
    [path] package that the client calls ([path.Join], [path.Clean]).

    Conventions.
    - A Go [string] is a Rocq [string] (a sequence of 8-bit characters).
    - [map[string]string] ([vars]) is a [gmap string string];
      [map[string]bool] used as a set ([branches]) is a [gset string].
    - A decoded JSON value ([interface{}]) is the inductive type [value]; a
      [map[string]interface{}] is an association list whose order is the
      order in which [range] happens to enumerate the map.
    - The remote store is a pair of functions [List] and [Read]; every call
      made to it is recorded in a trace. *)

From Stdlib Require Import ZArith Ascii String.
From stdpp Require Import gmap strings list fin_maps sorting.

Local Open Scope string_scope.
Local Open Scope list_scope.
Local Open Scope nat_scope.

(** ** Go's [path] package *)

Module GoPath.

Definition is_slash (c : ascii) : bool := Ascii.eqb c "/"%char.
Definition is_dot (c : ascii) : bool := Ascii.eqb c "."%char.

(** The output buffer [lazybuf] of [Clean], kept newest byte first: [out.w]
    is the length of the list and [out.append c] is [c :: out]. *)
Definition lazybuf := list ascii.

(** [out.w--; for out.w > dotdot && out.index(out.w) != '/' { out.w-- }].
    After a decrement, [out.index(out.w)] is the byte that was just dropped. *)
Fixpoint backtrack (dotdot : nat) (out : lazybuf) : lazybuf :=
  match out with
  | [] => []
  | c :: out' =>
      if (dotdot <? length out')%nat && negb (is_slash c)
      then backtrack dotdot out'
      else out'
  end.

(** [for ; r < n && path[r] != '/'; r++ { out.append(path[r]) }]:
    returns the unread rest of the path and the buffer. *)
Fixpoint copy_elem (path : list ascii) (out : lazybuf) : list ascii * lazybuf :=
  match path with
  | [] => ([], out)
  | c :: rest => if is_slash c then (path, out) else copy_elem rest (c :: out)
  end.

(** [r+k == n || path[r+k] == '/'], on the path from index [r+k] on. *)
Definition end_or_slash (path : list ascii) : bool :=
  match path with
  | [] => true
  | c :: _ => is_slash c
  end.

(** The main loop [for r < n { switch ... }] of [Clean]; [path] is the part
    of the input from index [r] on. Every iteration reads at least one byte,
    so [length path] iterations are enough; [None] is "out of fuel". *)
Fixpoint clean_loop (fuel : nat) (rooted : bool) (path : list ascii)
    (out : lazybuf) (dotdot : nat) : option lazybuf :=
  match path with
  | [] => Some out
  | c :: p1 =>
      match fuel with
      | O => None
      | S fuel =>
          if is_slash c then
            (* empty path element *)
            clean_loop fuel rooted p1 out dotdot
          else if is_dot c && end_or_slash p1 then
            (* . element *)
            clean_loop fuel rooted p1 out dotdot
          else if is_dot c && is_dot (hd "/"%char p1) && end_or_slash (tl p1) then
            (* .. element: remove to last / *)
            let p2 := tl p1 in
            if (dotdot <? length out)%nat then
              clean_loop fuel rooted p2 (backtrack dotdot out) dotdot
            else if negb rooted then
              let out1 := if (0 <? length out)%nat then "/"%char :: out else out in
              let out2 := "."%char :: "."%char :: out1 in
              clean_loop fuel rooted p2 out2 (length out2)
            else
              clean_loop fuel rooted p2 out dotdot
          else
            (* real path element: add slash if needed, copy element *)
            let out1 :=
              if (rooted && negb (length out =? 1)%nat)
                 || (negb rooted && negb (length out =? 0)%nat)
              then "/"%char :: out else out in
            let '(rest, out2) := copy_elem path out1 in
            clean_loop fuel rooted rest out2 dotdot
      end
  end.

(** [path.Clean] on the bytes of the path; [None] only if the loop ran out
    of fuel, which [clean_bytes_total] below excludes. *)
Definition clean_bytes (path : list ascii) : option (list ascii) :=
  match path with
  | [] => Some ["."%char]
  | c :: p1 =>
      let rooted := is_slash c in
      let out0 : lazybuf := if rooted then ["/"%char] else [] in
      let r0 := if rooted then p1 else path in
      let dotdot0 := if rooted then 1%nat else 0%nat in
      match clean_loop (length path) rooted r0 out0 dotdot0 with
      | None => None
      | Some out =>
          (* Turn empty string into "." *)
          if (length out =? 0)%nat then Some ["."%char] else Some (rev out)
      end
  end.

Definition Clean (path : string) : string :=
  match clean_bytes (list_ascii_of_string path) with
  | Some out => string_of_list_ascii out
  | None => path
  end.

(** The buffer that [Join] builds before cleaning: an element is appended,
    after a separator, as soon as the buffer or the element is non-empty. *)
Fixpoint join_buf (elem : list string) (buf : string) : string :=
  match elem with
  | [] => buf
  | e :: rest =>
      if (0 <? String.length buf)%nat || negb (String.eqb e "") then
        let buf1 := if (0 <? String.length buf)%nat then buf +:+ "/" else buf in
        join_buf rest (buf1 +:+ e)
      else join_buf rest buf
  end.

(** [path.Join(elem...)]. *)
Definition Join (elem : list string) : string :=
  let size := foldr (fun e n => (String.length e + n)%nat) 0%nat elem in
  if (size =? 0)%nat then "" else Clean (join_buf elem "").

End GoPath.

(** ** The Vault client *)

Module Vault.

Import GoPath.

(** A decoded JSON value, as held in an [interface{}]. *)
#[local] Unset Elimination Schemes.
Inductive value : Type :=
  | VNil
  | VBool (b : bool)
  | VNumber (n : string)
  | VString (s : string)
  | VList (l : list value)
  | VMap (m : list (string * value)).
#[local] Set Elimination Schemes.

(** [map[string]interface{}]: the fields in the order [range] yields them. *)
Abbreviation fields := (list (string * value)).

(** [m[k]] with the comma-ok result: the field named [k], if any. *)
Fixpoint map_get (m : fields) (k : string) : option value :=
  match m with
  | [] => None
  | (k', v) :: rest => if String.eqb k' k then Some v else map_get rest k
  end.

(** [vaultapi.Secret], reduced to the field the client reads; [Data] may be
    a nil map. *)
Record Secret : Type := { Data : option fields }.

Definition error := string.

(** What the walk and the fetch do to the outside world, oldest event first:
    [EvVisit p] is [branches[p] = true], [EvList p] and [EvRead p] are the
    remote calls [Logical().List(p)] and [Logical().Read(p)]. *)
Inductive event : Type :=
  | EvVisit (p : string)
  | EvList (p : string)
  | EvRead (p : string).

#[global] Instance event_eq_dec : EqDecision event.
Proof. solve_decision. Defined.

Record walk_state : Type := {
  branches : gset string;
  trace : list event
}.

Definition record (e : event) (st : walk_state) : walk_state :=
  {| branches := branches st; trace := (trace st ++ [e])%list |}.

Definition visit (key : string) (st : walk_state) : walk_state :=
  record (EvVisit key) {| branches := {[key]} ∪ branches st; trace := trace st |}.

(** [if last := len(key) - 1; last > 0 && key[last] == '/' { key = key[:last] }] *)
Definition strip_slash (key : string) : string :=
  let last := (Z.of_nat (String.length key) - 1)%Z in
  if (0 <? last)%Z
     && match String.get (Z.to_nat last) key with
        | Some c => is_slash c
        | None => false
        end
  then String.substring 0 (Z.to_nat last) key
  else key.

(** [isKV]: the Go pair [(text, ok)]. *)
Definition isKV (data : fields) : string * bool :=
  if (length data =? 1)%nat then
    match map_get data "value" with
    | Some (VString text) => (text, true)
    | _ => ("", false)
    end
  else ("", false).

Abbreviation vars_map := (gmap string string).

(** [flatten]; the inner [fix] is the [for innerKey, innerValue := range inner]
    loop. *)
Fixpoint flatten (key : string) (v : value) (vars : vars_map) : vars_map :=
  match v with
  | VString s => <[key := s]> vars
  | VMap inner =>
      (fix range (inner : fields) (vars : vars_map) : vars_map :=
         match inner with
         | [] => vars
         | (innerKey, innerValue) :: rest =>
             range rest (flatten (Join [key; "/"; innerKey]) innerValue vars)
         end) inner vars
  | _ => vars
  end.

Section Client.

(** The remote store behind [c.Logical()]: each call returns the Go pair
    [(resp, err)]. *)
Variable Logical_List : string -> option Secret * option error.
Variable Logical_Read : string -> option Secret * option error.

(** [json.Marshal] of the response data (its error is discarded by the
    client). *)
Variable json_Marshal : fields -> string.

(** The loop [for _, innerKey := range keyList] of [walkTree]; [walk] is the
    recursive call, whose returned error is dropped. [None]: out of fuel. *)
Fixpoint walk_children (walk : string -> walk_state -> option (walk_state * option error))
    (key : string) (keyList : list value) (st : walk_state)
    : option (walk_state * option error) :=
  match keyList with
  | [] => Some (st, None)
  | innerKey :: rest =>
      match innerKey with
      | VString s =>
          match walk (Join [key; "/"; s]) st with
          | None => None
          | Some (st', _) => walk_children walk key rest st'
          end
      | _ => walk_children walk key rest st
      end
  end.

(** [walkTree]. The recursion follows the remote tree, so it is bounded by
    [fuel] (the call depth); [None] means the bound was hit. *)
Fixpoint walkTree (fuel : nat) (key : string) (st : walk_state)
    : option (walk_state * option error) :=
  match fuel with
  | O => None
  | S fuel =>
      let key := strip_slash key in
      if decide (key ∈ branches st) then
        (* already processed this branch *)
        Some (st, None)
      else
        let st := visit key st in
        let st := record (EvList key) st in
        match Logical_List key with
        | (_, Some err) => Some (st, Some err)
        | (None, None) => Some (st, None)
        | (Some resp, None) =>
            match Data resp with
            | None => Some (st, None)
            | Some data =>
                match map_get data "keys" with
                | Some (VList keyList) =>
                    walk_children (walkTree fuel) key keyList st
                | _ => Some (st, None)
                end
            end
        end
  end.

(** [for _, key := range keys { walkTree(c.client, key, branches) }] *)
Fixpoint walk_prefixes (fuel : nat) (keys : list string) (st : walk_state)
    : option walk_state :=
  match keys with
  | [] => Some st
  | key :: rest =>
      match walkTree fuel key st with
      | None => None
      | Some (st', _) => walk_prefixes fuel rest st'
      end
  end.

Definition init_state : walk_state := {| branches := ∅; trace := [] |}.

(** The body of the read loop once [resp.Data] is known to be non-nil. *)
Definition store (key : string) (data : fields) (vars : vars_map) : vars_map :=
  let '(val, ok) := isKV data in
  if ok then <[key := val]> vars
  else
    let js := json_Marshal data in
    let vars := <[key := js]> vars in
    let vars := flatten key (VMap data) vars in
    delete key vars.

(** [for key := range branches { ... }], over the keys in the order [range]
    yields them. Result: the Go pair [(vars, err)], [None] for the nil map,
    and the trace extended with the reads made. *)
Fixpoint read_loop (order : list string) (vars : vars_map) (tr : list event)
    : (option vars_map * option error) * list event :=
  match order with
  | [] => ((Some vars, None), tr)
  | key :: rest =>
      let tr := (tr ++ [EvRead key])%list in
      match Logical_Read key with
      | (_, Some err) => ((None, Some err), tr)
      | (None, None) => read_loop rest vars tr
      | (Some resp, None) =>
          match Data resp with
          | None => read_loop rest vars tr
          | Some data => read_loop rest (store key data vars) tr
          end
      end
  end.

(** [GetValues]. [range_order] is the order in which the runtime enumerates
    the [branches] map; Go leaves it unspecified. *)
Definition GetValues (fuel : nat) (range_order : gset string -> list string)
    (keys : list string)
    : option ((option vars_map * option error) * list event) :=
  match walk_prefixes fuel keys init_state with
  | None => None
  | Some st => Some (read_loop (range_order (branches st)) ∅ (trace st))
  end.

End Client.

End Vault.

(** ** Vocabulary for the statements about the client *)

Module VaultShape.

Import GoPath Vault.

(** The [keys] sequence of a [List] response; empty when the call failed or
    the response has no such sequence. *)
Definition listing (r : option Secret * option error) : list value :=
  match r with
  | (Some resp, None) =>
      match Data resp with
      | Some data =>
          match map_get data "keys" with
          | Some (VList keyList) => keyList
          | _ => []
          end
      | None => []
      end
  | _ => []
  end.

(** The data of a [Read] response that the read loop stores; [None] when the
    call failed, or returned no response or no data. *)
Definition payload (r : option Secret * option error) : option fields :=
  match r with
  | (Some resp, None) => Data resp
  | _ => None
  end.

(** The string leaves of a value with the keys [flatten] gives them, in the
    order [flatten] meets them. *)
Fixpoint leaves (key : string) (v : value) : list (string * string) :=
  match v with
  | VString s => [(key, s)]
  | VMap inner =>
      (fix range (inner : fields) : list (string * string) :=
         match inner with
         | [] => []
         | (innerKey, innerValue) :: rest =>
             leaves (Join [key; "/"; innerKey]) innerValue ++ range rest
         end) inner
  | _ => []
  end.

(** The string leaves of the fields of a map value. *)
Definition leaves_fields (key : string) (m : fields) : list (string * string) :=
  flat_map (fun kv => leaves (Join [key; "/"; kv.1]) kv.2) m.

(** The output keys that storing [data] read at [key] writes or deletes. *)
Definition touched (key : string) (data : fields) : list string :=
  key :: (if (isKV data).2 then [] else (leaves key (VMap data)).*1).

(** [vars[k] = s] for each pair of a list, first pair first. *)
Definition writes (l : list (string * string)) (vars : vars_map) : vars_map :=
  foldl (fun m kv => <[kv.1 := kv.2]> m) vars l.

(** The value the last write to [k] in [l] leaves there. *)
Fixpoint last_write (k : string) (l : list (string * string)) : option string :=
  match l with
  | [] => None
  | (k', s) :: rest =>
      match last_write k rest with
      | Some s' => Some s'
      | None => if decide (k' = k) then Some s else None
      end
  end.

(** A set of paths that contains, with each path, the paths the walk goes to
    from it: the join of each string child of its listing, stripped. *)
Definition closed_under_listing (Logical_List : string -> option Secret * option error)
    (U : gset string) : Prop :=
  forall p c, p ∈ U -> VString c ∈ listing (Logical_List p) ->
    strip_slash (Join [p; "/"; c]) ∈ U.

(** Every remote list call in a trace comes after the visit of its path. *)
Definition visit_before_list (tr : list event) : Prop :=
  forall i p, tr !! i = Some (EvList p) ->
    exists j, j < i /\ tr !! j = Some (EvVisit p).

(** No path is listed at two positions of a trace. *)
Definition listed_once (tr : list event) : Prop :=
  forall i j p, tr !! i = Some (EvList p) -> tr !! j = Some (EvList p) -> i = j.

(** The invariant of a discovery run: the trace is well ordered and every
    visit it records is in [branches]. *)
Definition walk_inv (st : walk_state) : Prop :=
  visit_before_list (trace st) /\ listed_once (trace st)
  /\ forall p, EvVisit p ∈ trace st -> p ∈ branches st.

(** What an iteration of the read loop whose read does not fail does to
    [vars]. *)
Definition read_step (Logical_Read : string -> option Secret * option error)
    (json_Marshal : fields -> string) (vars : vars_map) (key : string) : vars_map :=
  match payload (Logical_Read key) with
  | Some data => store json_Marshal key data vars
  | None => vars
  end.

(** The output keys that the iteration for [key] writes or deletes. *)
Definition touches (Logical_Read : string -> option Secret * option error)
    (key : string) : list string :=
  match payload (Logical_Read key) with
  | Some data => touched key data
  | None => []
  end.

(** What the iteration for [key], taken alone, leaves at the output key
    [k]: the scalar secret or the string leaf written there, or nothing
    when [k] is the path of a structured value, whose entry is deleted. *)
Definition entry (Logical_Read : string -> option Secret * option error)
    (json_Marshal : fields -> string) (key k : string) : option string :=
  read_step Logical_Read json_Marshal ∅ key !! k.

(** Any two paths of [B] that touch the same output key leave the same entry
    there, the first read through [Read1] and the second through [Read2]. *)
Definition agree (Read1 Read2 : string -> option Secret * option error)
    (json_Marshal : fields -> string) (B : gset string) : Prop :=
  forall p q k, p ∈ B -> q ∈ B ->
    k ∈ touches Read1 p -> k ∈ touches Read1 q ->
    entry Read1 json_Marshal p k = entry Read2 json_Marshal q k.

(** The paths of a list touch pairwise disjoint sets of keys. *)
Definition apart (Logical_Read : string -> option Secret * option error)
    (order : list string) : Prop :=
  forall p q, p ∈ order -> q ∈ order -> p <> q ->
    touches Logical_Read p ## touches Logical_Read q.

(** Two decoded values that are the same JSON value: they differ at most in
    the order in which the fields of their maps are enumerated. (Lists are
    compared as they are: the client never enumerates a map inside a list.) *)
Inductive same_value : value -> value -> Prop :=
  | same_refl v : same_value v v
  | same_map m1 m2 : same_fields m1 m2 -> same_value (VMap m1) (VMap m2)
with same_fields : fields -> fields -> Prop :=
  | same_nil : same_fields [] []
  | same_skip k v1 v2 m1 m2 :
      same_value v1 v2 -> same_fields m1 m2 ->
      same_fields ((k, v1) :: m1) ((k, v2) :: m2)
  | same_swap x y m : same_fields (x :: y :: m) (y :: x :: m)
  | same_trans m1 m2 m3 :
      same_fields m1 m2 -> same_fields m2 m3 -> same_fields m1 m3.

Scheme same_value_mut := Minimality for same_value Sort Prop
  with same_fields_mut := Minimality for same_fields Sort Prop.

Combined Scheme same_value_fields_ind from same_value_mut, same_fields_mut.

(** Two responses of a read that carry the same error and the same data. *)
Definition same_response (r1 r2 : option Secret * option error) : Prop :=
  r1.2 = r2.2 /\ option_Forall2 same_fields (payload r1) (payload r2).

End VaultShape.

(** ** A small remote store, for the concrete runs *)

Module Demo.

Import GoPath Vault.

Definition keys_response (names : list value) : option Secret * option error :=
  (Some {| Data := Some [("keys", VList names)] |}, None).

Definition data_response (data : fields) : option Secret * option error :=
  (Some {| Data := Some data |}, None).

(** [secret] lists two children, a number and its own parent; the parent [.]
    lists [secret] back, so the listings form a cycle. Listing [secret/app]
    fails. *)
Definition demo_List (p : string) : option Secret * option error :=
  if String.eqb p "secret" then
    keys_response [VString "app/"; VNumber "7"; VString "db"; VString ".."]
  else if String.eqb p "." then keys_response [VString "secret"]
  else if String.eqb p "secret/app" then (None, Some "permission denied")
  else (None, None).

(** As [demo_List], but listing [secret/app] succeeds and gives no children:
    no list call to this store fails. *)
Definition ok_List (p : string) : option Secret * option error :=
  if String.eqb p "secret/app" then (None, None) else demo_List p.

(** [secret/db] holds a scalar secret, [secret/app] a structured one, and
    [secret] itself a structured one with a field named like its child. *)
Definition demo_Read (p : string) : option Secret * option error :=
  if String.eqb p "secret/db" then data_response [("value", VString "hunter2")]
  else if String.eqb p "secret/app" then
    data_response [("db", VMap [("user", VString "a"); ("pass", VString "b")])]
  else if String.eqb p "secret" then
    data_response [("db", VString "shadow"); ("note", VString "n")]
  else (None, None).

(** As [demo_Read], but the scalar at [secret/db] is the string that the
    field [db] of the value at [secret] holds: the two paths leave the same
    entry at the key [secret/db]. *)
Definition demo_Read_agreeing (p : string) : option Secret * option error :=
  if String.eqb p "secret/db" then data_response [("value", VString "shadow")]
  else demo_Read p.

(** The store of [demo_Read_agreeing] seen by another run: the fields of
    the map at [secret/app] are enumerated in the other order. *)
Definition demo_Read_agreeing_shuffled (p : string) : option Secret * option error :=
  if String.eqb p "secret/app" then
    data_response [("db", VMap [("pass", VString "b"); ("user", VString "a")])]
  else demo_Read_agreeing p.

(** As [demo_Read], without the value at [secret]. *)
Definition demo_Read_apart (p : string) : option Secret * option error :=
  if String.eqb p "secret" then (None, None) else demo_Read p.

(** The store of [demo_Read_apart] seen by another run: the fields of the
    map at [secret/app] are enumerated in the other order. *)
Definition demo_Read_shuffled (p : string) : option Secret * option error :=
  if String.eqb p "secret/app" then
    data_response [("db", VMap [("pass", VString "b"); ("user", VString "a")])]
  else demo_Read_apart p.

(** As [demo_Read], but reading [secret/db] fails. *)
Definition demo_Read_failing (p : string) : option Secret * option error :=
  if String.eqb p "secret/db" then (None, Some "connection reset") else demo_Read p.

(** A stand-in for [json.Marshal]; the fetch result does not depend on it. *)
Definition demo_Marshal (data : fields) : string := "{}".

(** The four paths the demo tree holds. *)
Definition demo_paths : gset string :=
  {["secret"; "."; "secret/app"; "secret/db"]}.

(** The state in which the walk of the demo tree from [secret/] ends. *)
Definition demo_state : walk_state :=
  {| branches := demo_paths;
     trace := [EvVisit "secret"; EvList "secret";
               EvVisit "secret/app"; EvList "secret/app";
               EvVisit "secret/db"; EvList "secret/db";
               EvVisit "."; EvList "."] |}.

(** A structured value with two field names that join to the same key. *)
Definition colliding_fields : fields := [("a", VString "1"); ("a/", VString "2")].

(** A structured value with two such field names beside other fields. *)
Definition mixed_fields : fields :=
  [("db", VMap [("user", VString "a"); ("pass", VString "b")]);
   ("a", VString "1"); ("a/", VString "2"); ("b", VString "3")].

(** A structured value with a field of the empty name. *)
Definition unnamed_field : fields := [("", VString "x")].

(** A store without children that holds [unnamed_field] at a prefix written
    with a doubled separator. *)
Definition flat_List (p : string) : option Secret * option error := (None, None).

Definition doubled_Read (p : string) : option Secret * option error :=
  if String.eqb p "secret//app" then data_response unnamed_field else (None, None).

(** A recursive call that only records the path it is called on. *)
Definition visit_only (key : string) (st : walk_state) : option (walk_state * option error) :=
  Some (visit key st, None).

(** Two enumeration orders of a branch set. *)
Definition range_up (b : gset string) : list string := elements b.
Definition range_down (b : gset string) : list string := reverse (elements b).

End Demo.

(** ** The shape of a path: its elements

    The vocabulary in which the results about [Join] are stated. *)

Module PathShape.

Import GoPath.

(** The bytes of an element that starts here, and the path after it. *)
Fixpoint first_elem (path : list ascii) : list ascii :=
  match path with
  | [] => []
  | c :: rest => if is_slash c then [] else c :: first_elem rest
  end.

Fixpoint after_elem (path : list ascii) : list ascii :=
  match path with
  | [] => []
  | c :: rest => if is_slash c then path else after_elem rest
  end.

(** The elements of a path: its maximal runs of bytes other than ['/']. *)
Fixpoint segments (path : list ascii) : list (list ascii) :=
  match path with
  | [] => []
  | c :: rest =>
      if is_slash c then segments rest
      else if end_or_slash rest then [c] :: segments rest
      else match segments rest with
           | s :: ss => (c :: s) :: ss
           | [] => [[c]]
           end
  end.

Definition segments_of (path : string) : list (list ascii) :=
  segments (list_ascii_of_string path).

(** An element other than [.] and [..]. *)
Definition plain (s : list ascii) : bool :=
  negb (bool_decide (s = ["."%char])) && negb (bool_decide (s = ["."%char; "."%char])).

(** Elements written one after the other with a single ['/'] in between. *)
Definition join_segments (ss : list (list ascii)) : list ascii :=
  match ss with
  | [] => []
  | s :: ss' => s ++ flat_map (cons "/"%char) ss'
  end.

(** A run of separators. *)
Definition slashes (t : list ascii) : Prop := Forall (fun c => is_slash c = true) t.

(** The path starts at the root. *)
Definition rooted (path : string) : bool :=
  match path with
  | EmptyString => false
  | String c _ => is_slash c
  end.

(** The join as the specification words it: the elements of both paths, in
    order and unchanged, with exactly one ['/'] between any two of them; the
    result is rooted when the first path is (an empty first path leaves the
    inserted separator in front). *)
Definition joined_once (p c : string) : string :=
  string_of_list_ascii
    ((if rooted p || String.eqb p "" then ["/"%char] else [])
     ++ join_segments (segments_of p ++ segments_of c)).

(** *** What [Clean] computes, on elements

    The buffer of [Clean] always holds, after the root if the path has one,
    a number of [..] elements followed by elements other than [.] and [..]. *)

Definition dot_elem : list ascii := ["."%char].
Definition dotdot_elem : list ascii := ["."%char; "."%char].

(** The effect of one more element: [.] is dropped, [..] removes the last
    plain element if there is one, is dropped at the root, and is kept
    otherwise; any other element is appended. *)
Definition norm_step (rt : bool) (st : nat * list (list ascii)) (s : list ascii)
    : nat * list (list ascii) :=
  if bool_decide (s = dot_elem) then st
  else if bool_decide (s = dotdot_elem) then
    match st.2 with
    | [] => if rt then st else (S st.1, [])
    | _ => (st.1, removelast st.2)
    end
  else (st.1, st.2 ++ [s]).

Definition norm_elems (rt : bool) (elems : list (list ascii)) : nat * list (list ascii) :=
  fold_left (norm_step rt) elems (0, []).

(** The bytes of a buffer. *)
Definition render (rt : bool) (st : nat * list (list ascii)) : list ascii :=
  (if rt then ["/"%char] else []) ++ join_segments (repeat dotdot_elem st.1 ++ st.2).

(** The cleaned path, from the elements of the path. *)
Definition cleaned (rt : bool) (elems : list (list ascii)) : list ascii :=
  match render rt (norm_elems rt elems) with
  | [] => ["."%char]
  | r => r
  end.

(** An element as [segments] yields them: non-empty, without ['/']. *)
Definition is_elem (s : list ascii) : Prop :=
  s <> [] /\ Forall (fun c => is_slash c = false) s.

(** A buffer: elements only, no [.] or [..] among the plain ones, and no
    [..] in front when the path is rooted. *)
Definition buffer_ok (rt : bool) (st : nat * list (list ascii)) : Prop :=
  (rt = true -> st.1 = 0) /\ Forall (fun s => is_elem s /\ plain s = true) st.2.

End PathShape.

(** ** The discovered set and the output *)

Module DiscoveryShape.

Import GoPath Vault VaultShape.

(** The paths of the remote list calls of a trace, in the order of the
    calls, and the paths of its read calls. *)
Definition list_calls (tr : list event) : list string :=
  omap (fun e => match e with EvList p => Some p | _ => None end) tr.

Definition read_calls (tr : list event) : list string :=
  omap (fun e => match e with EvRead p => Some p | _ => None end) tr.

(** A property of paths that the walk cannot leave: it holds of the path
    the walk goes to from any path of which it holds. *)
Definition kept_by_listing (Logical_List : string -> option Secret * option error)
    (Q : string -> Prop) : Prop :=
  forall p c, Q p -> VString c ∈ listing (Logical_List p) ->
    Q (strip_slash (Join [p; "/"; c])).

(** Every path that [st'] has and [st] has not has its children in [st']. *)
Definition new_paths_closed (Logical_List : string -> option Secret * option error)
    (st st' : walk_state) : Prop :=
  branches st ⊆ branches st'
  /\ forall p c, p ∈ branches st' -> p ∉ branches st ->
       VString c ∈ listing (Logical_List p) ->
       strip_slash (Join [p; "/"; c]) ∈ branches st'.

End DiscoveryShape.

Module OutputShape.

Import GoPath Vault VaultShape.

(** The value holds a string that [flatten] reaches: a string, or a map
    with such a field at any depth. A list counts for nothing, whatever it
    holds, like a number, a boolean and [nil]. *)
Fixpoint has_string (v : value) : bool :=
  match v with
  | VString _ => true
  | VMap m =>
      (fix any (m : fields) : bool :=
         match m with
         | [] => false
         | (_, v) :: rest => has_string v || any rest
         end) m
  | _ => false
  end.

(** The entry [k ↦ v] is what the read at [p] gives: the scalar secret at
    [p], or a string leaf of the structured value at [p] under a key other
    than [p]. *)
Definition entry_of (Logical_Read : string -> option Secret * option error)
    (k v p : string) : Prop :=
  exists data, payload (Logical_Read p) = Some data
    /\ ((isKV data = (v, true) /\ k = p)
        \/ ((isKV data).2 = false /\ (k, v) ∈ leaves p (VMap data) /\ k <> p)).

End OutputShape.

(** ** Authentication *)

Module Auth.

Import Vault.

(** A value passed to [panic]: a string, an [error] (the run-time errors
    of Go are errors), or something else. *)
Inductive panic_value : Type :=
  | PanicString (s : string)
  | PanicError (e : error)
  | PanicOther.

(** How a call ends: it returns, or it panics. *)
Inductive outcome (A : Type) : Type :=
  | Returned (a : A)
  | Panicked (p : panic_value).

Arguments Returned {A} a.
Arguments Panicked {A} p.

(** [getParameter]: [parameters[key]] is the empty string when the map has
    no such key. *)
Definition getParameter (key : string) (parameters : gmap string string) : outcome string :=
  let value := default "" (parameters !! key) in
  if String.eqb value "" then
    Panicked (PanicString (key +:+ " is missing from configuration"))
  else Returned value.

(** [defer panicToError(&err)], applied to the way the body ended: the
    result [err] is replaced when the body panicked with a string or an
    error; any other panic goes on. *)
Definition panicToError (body : outcome (option error)) : outcome (option error) :=
  match body with
  | Returned err => Returned err
  | Panicked (PanicString t) => Returned (Some t)
  | Panicked (PanicError t) => Returned (Some t)
  | Panicked PanicOther => Panicked PanicOther
  end.

(** [vaultapi.Secret] as [authenticate] reads it: [secret.Auth.ClientToken],
    where [secret] and [secret.Auth] may be nil. *)
Record SecretAuth : Type := { ClientToken : string }.
Record AuthSecret : Type := { Auth : option SecretAuth }.

(** What [authenticate] does to the outside world. *)
Inductive auth_call : Type :=
  | CallWrite (path : string) (data : option fields)
  | CallRead (path : string)
  | CallReadFile (path : string).

(** The client: the token it holds ([c.Token()]), and the calls made. *)
Record client : Type := {
  token : string;
  calls : list auth_call
}.

(** The error of a nil pointer dereference. *)
Definition nil_dereference : error :=
  "runtime error: invalid memory address or nil pointer dereference".

Definition SetToken (t : string) (c : client) : client :=
  {| token := t; calls := calls c |}.

Definition called (e : auth_call) (c : client) : client :=
  {| token := token c; calls := (calls c ++ [e])%list |}.

Section Authenticate.

(** The server, which sees the token of the client, and the file system. *)
Variable Logical_Write :
  string -> string -> option fields -> option AuthSecret * option error.
Variable Logical_Read : string -> string -> option AuthSecret * option error.
Variable ReadFile : string -> string * option error.

(** A computation on the client that may panic. *)
Definition M (A : Type) : Type := client -> client * outcome A.

Definition ret {A : Type} (a : A) : M A := fun c => (c, Returned a).

Definition bind {A B : Type} (m : M A) (f : A -> M B) : M B :=
  fun c =>
    match m c with
    | (c', Returned a) => f a c'
    | (c', Panicked p) => (c', Panicked p)
    end.

Definition param (key : string) (params : gmap string string) : M string :=
  fun c => (c, getParameter key params).

Definition write (path : string) (data : option fields)
    : M (option AuthSecret * option error) :=
  fun c => (called (CallWrite path data) c, Returned (Logical_Write (token c) path data)).

Definition read (path : string) : M (option AuthSecret * option error) :=
  fun c => (called (CallRead path) c, Returned (Logical_Read (token c) path)).

Definition read_file (path : string) : M (string * option error) :=
  fun c => (called (CallReadFile path) c, Returned (ReadFile path)).

Definition set_token (t : string) : M unit := fun c => (SetToken t c, Returned tt).

Definition get_token : M string := fun c => (c, Returned (token c)).

Definition raise {A : Type} (p : panic_value) : M A := fun c => (c, Panicked p).

(** The [switch authType] of [authenticate]. It ends with [inl err] at the
    [return err] of the [kubernetes] case, and otherwise with the values of
    the variables [secret] and [err] of the function. In the [kubernetes]
    case [jwt, err := ...] declares a new [err] for the case, to which the
    error of the login is assigned: the [err] of the function stays nil. *)
Definition login (authType : string) (params : gmap string string)
    : M (option error + option AuthSecret * option error) :=
  if String.eqb authType "approle" then
    bind (param "role-id" params) (fun role_id =>
    bind (param "secret-id" params) (fun secret_id =>
    bind (write "/auth/approle/login"
            (Some [("role_id", VString role_id); ("secret_id", VString secret_id)]))
      (fun r => ret (inr r))))
  else if String.eqb authType "app-id" then
    bind (param "app-id" params) (fun app_id =>
    bind (param "user-id" params) (fun user_id =>
    bind (write "/auth/app-id/login"
            (Some [("app_id", VString app_id); ("user_id", VString user_id)]))
      (fun r => ret (inr r))))
  else if String.eqb authType "github" then
    bind (param "token" params) (fun tok =>
    bind (write "/auth/github/login" (Some [("token", VString tok)]))
      (fun r => ret (inr r)))
  else if String.eqb authType "token" then
    bind (param "token" params) (fun tok =>
    bind (set_token tok) (fun _ =>
    bind (read "/auth/token/lookup-self") (fun r => ret (inr r))))
  else if String.eqb authType "userpass" then
    bind (param "username" params) (fun username =>
    bind (param "password" params) (fun password =>
    bind (write ("/auth/userpass/login/" +:+ username)
            (Some [("password", VString password)]))
      (fun r => ret (inr r))))
  else if String.eqb authType "kubernetes" then
    bind (read_file "/var/run/secrets/kubernetes.io/serviceaccount/token") (fun f =>
    match f.2 with
    | Some err => ret (inl (Some err))
    | None =>
        bind (param "role-id" params) (fun role =>
        bind (write "/auth/kubernetes/login"
                (Some [("jwt", VString f.1); ("role", VString role)]))
          (fun r => ret (inr (r.1, None))))
    end)
  else if String.eqb authType "cert" then
    bind (write "/auth/cert/login" None) (fun r => ret (inr r))
  else ret (inr (None, None)).

(** The statements after the [switch]. *)
Definition finish (secret : option AuthSecret) (err : option error) : M (option error) :=
  match err with
  | Some e => ret (Some e)
  | None =>
      bind get_token (fun tok =>
      if negb (String.eqb tok "") then
        (* the token has already been set *)
        ret None
      else
        match secret with
        | Some {| Auth := Some auth |} =>
            bind (set_token (ClientToken auth)) (fun _ => ret None)
        | _ => raise (PanicError nil_dereference)
        end)
  end.

(** [authenticate]: the Go result [err], unless a panic goes on. *)
Definition authenticate (authType : string) (params : gmap string string)
    (c : client) : client * outcome (option error) :=
  let body :=
    bind (login authType params) (fun l =>
      match l with
      | inl err => ret err
      | inr (secret, err) => finish secret err
      end) in
  let '(c', o) := body c in
  (c', panicToError o).

End Authenticate.

(** The parameters that [authenticate] takes from the configuration before
    it contacts the server, in the order in which it takes them. *)
Definition required (authType : string) : list string :=
  if String.eqb authType "approle" then ["role-id"; "secret-id"]
  else if String.eqb authType "app-id" then ["app-id"; "user-id"]
  else if String.eqb authType "github" then ["token"]
  else if String.eqb authType "token" then ["token"]
  else if String.eqb authType "userpass" then ["username"; "password"]
  else [].

(** The parameter is set, to a non-empty string. *)
Definition present (params : gmap string string) (key : string) : Prop :=
  exists v, params !! key = Some v /\ v <> "".

End Auth.

(** ** Further runs *)

Module MoreDemo.

Import GoPath Vault Demo Auth.

(** The state in which the walk of the demo tree from [.] ends. *)
Definition dot_state : walk_state :=
  {| branches := demo_paths;
     trace := [EvVisit "."; EvList ".";
               EvVisit "secret"; EvList "secret";
               EvVisit "secret/app"; EvList "secret/app";
               EvVisit "secret/db"; EvList "secret/db"] |}.

(** What a fetch of the demo tree returns when the paths are enumerated by
    [range_up]: the scalar at [secret/db] is overwritten by the field [db]
    of the value at [secret], which is read later. *)
Definition demo_output : vars_map :=
  {[ "secret/app/db/user" := "a"; "secret/app/db/pass" := "b";
     "secret/db" := "shadow"; "secret/note" := "n" ]}.

Definition demo_fetch_trace : list event :=
  trace demo_state ++ map EvRead ["secret/app"; "secret/db"; "secret"; "."].

(** A structured value in which [flatten] reaches no string. *)
Definition stringless_fields : fields :=
  [("count", VNumber "3"); ("tags", VList [VString "x"]);
   ("nested", VMap [("on", VBool true); ("none", VNil)])].

(** A server on which every login succeeds and gives the same token, one on
    which every call fails, and a file system with a token file. *)
Definition granting_Write (tok path : string) (data : option fields)
    : option AuthSecret * option error :=
  (Some {| Auth := Some {| ClientToken := "s.granted" |} |}, None).

Definition granting_Read (tok path : string) : option AuthSecret * option error :=
  (Some {| Auth := None |}, None).

Definition denying_Write (tok path : string) (data : option fields)
    : option AuthSecret * option error :=
  (None, Some "permission denied").

Definition denying_Read (tok path : string) : option AuthSecret * option error :=
  (None, Some "permission denied").

Definition pod_ReadFile (path : string) : string * option error := ("jwt", None).

Definition fresh_client : client := {| token := ""; calls := [] |}.

Definition keyed_client : client := {| token := "s.preset"; calls := [] |}.

End MoreDemo.

(** ** [path.Clean] always returns *)

Module GoPathFacts.

Import GoPath.

Lemma copy_elem_rest_length (path : list ascii) (out : lazybuf) :
  length (copy_elem path out).1 ≤ length path.
Proof.
  revert out. induction path as [|c path IH]; intros out; simpl; [lia|].
  destruct (is_slash c); simpl; [lia|]. specialize (IH (c :: out)). lia.
Qed.

Lemma copy_elem_step (c : ascii) (path : list ascii) (out : lazybuf) :
  is_slash c = false -> copy_elem (c :: path) out = copy_elem path (c :: out).
Proof. intros H. simpl. by rewrite H. Qed.

Lemma clean_loop_total (fuel : nat) (rooted : bool) (path : list ascii)
    (out : lazybuf) (dotdot : nat) :
  length path ≤ fuel -> is_Some (clean_loop fuel rooted path out dotdot).
Proof.
  revert path out dotdot.
  induction fuel as [|fuel IH]; intros path out dotdot Hlen.
  - destruct path; simpl in *; [eauto | lia].
  - destruct path as [|c p1]; [simpl; eauto|].
    cbn [clean_loop]. simpl in Hlen.
    destruct (is_slash c) eqn:Hc; [apply IH; lia|].
    destruct (is_dot c && end_or_slash p1); [apply IH; lia|].
    assert (length (tl p1) ≤ fuel) by (destruct p1; simpl in *; lia).
    destruct (is_dot c && is_dot (hd "/"%char p1) && end_or_slash (tl p1)).
    + destruct (dotdot <? length out)%nat; [by apply IH|].
      destruct (negb rooted); by apply IH.
    + rewrite copy_elem_step by done.
      match goal with |- context [copy_elem p1 ?o] =>
        pose proof (copy_elem_rest_length p1 o) as Hr;
        destruct (copy_elem p1 o) as [rest out2] end.
      simpl in Hr. apply IH. lia.
Qed.

Lemma clean_bytes_total (path : list ascii) : is_Some (clean_bytes path).
Proof.
  destruct path as [|c p1]; [simpl; eauto|].
  unfold clean_bytes.
  match goal with |- context [clean_loop ?f ?r ?p ?o ?d] =>
    destruct (clean_loop_total f r p o d) as [out Hout] end.
  - destruct (is_slash c); simpl; lia.
  - rewrite Hout. destruct (length out =? 0)%nat; eauto.
Qed.

(** [Clean] is the cleaned byte sequence: the fallback of its definition is
    never taken. *)
Lemma Clean_bytes (path : string) :
  clean_bytes (list_ascii_of_string path) = Some (list_ascii_of_string (Clean path)).
Proof.
  unfold Clean. destruct (clean_bytes_total (list_ascii_of_string path)) as [out ->].
  by rewrite list_ascii_of_string_of_list_ascii.
Qed.

End GoPathFacts.

(** ** Paths, their elements and [Join] *)

Module JoinFacts.

Import GoPath PathShape GoPathFacts.

Lemma copy_elem_spec (path : list ascii) (out : lazybuf) :
  copy_elem path out = (after_elem path, rev (first_elem path) ++ out).
Proof.
  revert out. induction path as [|c path IH]; intros out; simpl; [done|].
  destruct (is_slash c); [done|]. rewrite IH. simpl. by rewrite <- app_assoc.
Qed.

Lemma after_elem_length (path : list ascii) : length (after_elem path) ≤ length path.
Proof. induction path as [|c path IH]; simpl; [lia|]. destruct (is_slash c); simpl; lia. Qed.

Lemma end_or_slash_first_elem (path : list ascii) :
  end_or_slash path = true <-> first_elem path = [].
Proof.
  destruct path as [|c path]; simpl; [by split|].
  destruct (is_slash c); split; intros H; (done || discriminate H).
Qed.

Lemma segments_slash (c : ascii) (path : list ascii) :
  is_slash c = true -> segments (c :: path) = segments path.
Proof. intros H. simpl. by rewrite H. Qed.

Lemma segments_cons (c : ascii) (rest : list ascii) :
  segments (c :: rest) =
    if is_slash c then segments rest
    else if end_or_slash rest then [c] :: segments rest
    else match segments rest with
         | s :: ss => (c :: s) :: ss
         | [] => [[c]]
         end.
Proof. reflexivity. Qed.

Lemma segments_elem (c : ascii) (path : list ascii) :
  is_slash c = false ->
  segments (c :: path) = (c :: first_elem path) :: segments (after_elem path).
Proof.
  revert c. induction path as [|c' path IH]; intros c Hc.
  - simpl. by rewrite Hc.
  - rewrite (segments_cons c), Hc. cbn [end_or_slash first_elem after_elem].
    destruct (is_slash c') eqn:Hc'; [done|].
    by rewrite (IH c' Hc').
Qed.

Lemma list_ascii_app (a b : string) :
  list_ascii_of_string (a +:+ b) = list_ascii_of_string a ++ list_ascii_of_string b.
Proof. induction a as [|c a IH]; simpl; [done | by rewrite IH]. Qed.

Lemma first_elem_app_slash (a b : list ascii) :
  first_elem (a ++ "/"%char :: b) = first_elem a.
Proof. induction a as [|c a IH]; simpl; [done|]. destruct (is_slash c); [done | by rewrite IH]. Qed.

Lemma after_elem_app_slash (a b : list ascii) :
  after_elem (a ++ "/"%char :: b) = after_elem a ++ "/"%char :: b.
Proof. induction a as [|c a IH]; simpl; [done|]. destruct (is_slash c); [done | by rewrite IH]. Qed.

Lemma segments_app_slash (a b : list ascii) :
  segments (a ++ "/"%char :: b) = segments a ++ segments b.
Proof.
  remember (length a) as n eqn:Hn. revert a Hn.
  induction (lt_wf n) as [n _ IH]; intros a ->.
  destruct a as [|c a]; [done|].
  rewrite <- app_comm_cons.
  destruct (is_slash c) eqn:Hc.
  - rewrite !segments_slash by done. eapply IH; [|done]. simpl; lia.
  - rewrite !segments_elem by done.
    rewrite first_elem_app_slash, after_elem_app_slash. simpl. f_equal.
    eapply IH; [|done]. pose proof (after_elem_length a). simpl; lia.
Qed.

(** The three-element joins the client makes always reach [Clean]. *)
Lemma Join_slash_unfold (p c : string) :
  Join [p; "/"; c] = Clean (join_buf [p; "/"; c] "").
Proof.
  unfold Join. cbn [foldr].
  replace (String.length p + (String.length "/" + (String.length c + 0)) =? 0) with false; [done|].
  symmetry. apply Nat.eqb_neq. simpl. lia.
Qed.

Lemma join_buf_slash_bytes (p c : string) :
  list_ascii_of_string (join_buf [p; "/"; c] "")
  = if String.eqb p "" then "/"%char :: "/"%char :: list_ascii_of_string c
    else list_ascii_of_string p ++ "/"%char :: "/"%char :: "/"%char :: list_ascii_of_string c.
Proof.
  destruct p as [|a p]; [done|].
  simpl. rewrite !list_ascii_app. simpl. by rewrite <- !app_assoc.
Qed.

Lemma segments_joined (p c : string) :
  segments (list_ascii_of_string (join_buf [p; "/"; c] ""))
  = segments_of p ++ segments_of c.
Proof.
  rewrite join_buf_slash_bytes. unfold segments_of.
  destruct p as [|a p]; [done|].
  cbn -[list_ascii_of_string segments]. by rewrite segments_app_slash.
Qed.


(** *** Trailing separators *)

Lemma is_slash_not_dot (c : ascii) : is_slash c = true -> is_dot c = false.
Proof. intros H. apply Ascii.eqb_eq in H as ->. done. Qed.

Lemma clean_loop_slashes (fuel : nat) (rt : bool) (t : list ascii) (out : lazybuf) (dd : nat) :
  slashes t -> length t ≤ fuel -> clean_loop fuel rt t out dd = Some out.
Proof.
  revert t. induction fuel as [|fuel IH]; intros t Ht Hlen.
  - by destruct t; [|simpl in Hlen; lia].
  - destruct t as [|c t]; [done|]. apply Forall_cons_1 in Ht as [Hc Ht].
    cbn [clean_loop]. rewrite Hc. apply IH; [done | simpl in Hlen; lia].
Qed.

Lemma end_or_slash_app (p t : list ascii) :
  slashes t -> end_or_slash (p ++ t) = end_or_slash p.
Proof.
  intros Ht. destruct p; [|done]. destruct Ht as [|c t Hc _]; [done|]. by simpl.
Qed.

Lemma is_dot_hd_app (p t : list ascii) :
  slashes t -> is_dot (hd "/"%char (p ++ t)) = is_dot (hd "/"%char p).
Proof.
  intros Ht. destruct p; [|done]. destruct Ht as [|c t Hc _]; [done|].
  simpl. by rewrite is_slash_not_dot.
Qed.

Lemma first_elem_app (p t : list ascii) :
  slashes t -> first_elem (p ++ t) = first_elem p.
Proof.
  intros Ht. induction p as [|c p IH]; simpl.
  - destruct Ht as [|c t Hc _]; [done|]. simpl. by rewrite Hc.
  - destruct (is_slash c); [done | by rewrite IH].
Qed.

Lemma after_elem_app (p t : list ascii) :
  slashes t -> after_elem (p ++ t) = after_elem p ++ t.
Proof.
  intros Ht. induction p as [|c p IH]; simpl.
  - destruct Ht as [|c t Hc _]; [done|]. simpl. by rewrite Hc.
  - destruct (is_slash c); [done | by rewrite IH].
Qed.

Lemma dotdot_test_app (p t : list ascii) :
  slashes t ->
  is_dot (hd "/"%char p) && end_or_slash (tl (p ++ t))
  = is_dot (hd "/"%char p) && end_or_slash (tl p).
Proof.
  intros Ht. destruct p as [|c p]; [done|]. cbn [app hd tl].
  by rewrite end_or_slash_app.
Qed.

(** Separators at the end of a path do not change what the loop returns
    (nor does spare fuel). *)
Lemma clean_loop_trailing (f1 f2 : nat) (rt : bool) (path t : list ascii)
    (out : lazybuf) (dd : nat) :
  slashes t -> length path + length t ≤ f1 -> length path ≤ f2 ->
  clean_loop f1 rt (path ++ t) out dd = clean_loop f2 rt path out dd.
Proof.
  intros Ht. revert f2 path out dd.
  induction f1 as [|f1 IH]; intros f2 path out dd H1 H2.
  { destruct path, t; simpl in *; try lia. by destruct f2. }
  destruct path as [|c p1].
  { rewrite clean_loop_slashes by (done || simpl in *; lia). by destruct f2. }
  destruct f2 as [|f2]; [simpl in H2; lia|].
  rewrite <- app_comm_cons. cbn [clean_loop]. simpl in H1, H2.
  rewrite end_or_slash_app, is_dot_hd_app by done.
  destruct (is_slash c) eqn:Hc; [apply IH; lia|].
  destruct (is_dot c && end_or_slash p1); [apply IH; lia|].
  rewrite <- !andb_assoc, dotdot_test_app, !andb_assoc by done.
  destruct (is_dot c && is_dot (hd "/"%char p1) && end_or_slash (tl p1)) eqn:Hdd.
  - destruct p1 as [|c2 p2]; [by rewrite andb_false_r in Hdd|].
    cbn [app tl]. simpl in H1, H2.
    destruct (dd <? length out); [apply IH; lia|].
    destruct (negb rt); apply IH; lia.
  - rewrite (app_comm_cons p1 t c).
    rewrite !copy_elem_spec, first_elem_app, after_elem_app by done.
    cbn [after_elem first_elem]. rewrite Hc.
    pose proof (after_elem_length p1) as Hlen.
    apply IH; lia.
Qed.

Lemma clean_bytes_trailing (path t : list ascii) :
  slashes t -> path <> [] -> clean_bytes (path ++ t) = clean_bytes path.
Proof.
  intros Ht Hne. destruct path as [|c p1]; [done|].
  rewrite <- app_comm_cons. unfold clean_bytes.
  destruct (is_slash c).
  - rewrite (clean_loop_trailing _ (length (c :: p1))); [done | done | |];
      simpl; rewrite ?length_app; lia.
  - rewrite (app_comm_cons p1 t c).
    rewrite (clean_loop_trailing _ (length (c :: p1))); [done | done | |];
      simpl; rewrite ?length_app; simpl; lia.
Qed.

Lemma Clean_ext (a b : string) :
  clean_bytes (list_ascii_of_string a) = clean_bytes (list_ascii_of_string b) ->
  Clean a = Clean b.
Proof.
  rewrite !Clean_bytes. intros [= H].
  by rewrite <- (string_of_list_ascii_of_string (Clean a)), H,
    string_of_list_ascii_of_string.
Qed.

(** Joining the empty name onto a non-empty path cleans the path. *)
Lemma Join_empty_name (p : string) : p <> "" -> Join [p; "/"; ""] = Clean p.
Proof.
  intros Hne. rewrite Join_slash_unfold. apply Clean_ext.
  rewrite join_buf_slash_bytes.
  destruct (String.eqb_spec p ""); [done|].
  rewrite clean_bytes_trailing; [done | by repeat constructor |].
  by destruct p.
Qed.


End JoinFacts.

(** ** What [Clean] computes *)

Module CleanFacts.

Import GoPath PathShape GoPathFacts JoinFacts.

(** *** The buffer as a list of elements *)

Lemma join_segments_snoc (xs : list (list ascii)) (s : list ascii) :
  join_segments (xs ++ [s])
  = join_segments xs ++ match xs with [] => s | _ => "/"%char :: s end.
Proof.
  destruct xs as [|x xs]; simpl; [by rewrite app_nil_r|].
  rewrite flat_map_app. simpl. by rewrite app_nil_r, <- app_assoc.
Qed.

Lemma join_segments_nil (xs : list (list ascii)) :
  Forall (fun s => s <> []) xs -> join_segments xs = [] -> xs = [].
Proof.
  destruct xs as [|x xs]; [done|]. intros [Hx _]%Forall_cons_1. simpl.
  by destruct x.
Qed.

Lemma render_snoc (rt : bool) (k : nat) (ss : list (list ascii)) (s : list ascii) :
  render rt (k, ss ++ [s])
  = render rt (k, ss)
    ++ match repeat dotdot_elem k ++ ss with [] => s | _ => "/"%char :: s end.
Proof.
  unfold render. simpl. by rewrite app_assoc, join_segments_snoc, <- !app_assoc.
Qed.

Lemma render_base_length (rt : bool) (k : nat) (ss : list (list ascii)) :
  length (render rt (k, [])) ≤ length (render rt (k, ss)).
Proof.
  induction ss as [|s ss IH] using rev_ind; [done|].
  rewrite render_snoc, length_app. lia.
Qed.

Lemma elems_nonempty (ss : list (list ascii)) :
  Forall (fun s => is_elem s /\ plain s = true) ss -> Forall (fun s => s <> []) ss.
Proof. intros H. eapply Forall_impl; [exact H|]. by intros s [[? _] _]. Qed.

Lemma dotdots_nonempty (k : nat) : Forall (fun s => s <> []) (repeat dotdot_elem k).
Proof. induction k; constructor; done. Qed.

Lemma render_base_length_lt (rt : bool) (k : nat) (ss : list (list ascii)) :
  Forall (fun s => s <> []) ss -> ss <> [] ->
  length (render rt (k, [])) < length (render rt (k, ss)).
Proof.
  intros Hne Hss. destruct ss as [|s ss _] using rev_ind; [done|].
  apply Forall_app in Hne as [_ [Hs _]%Forall_cons_1].
  rewrite render_snoc, length_app.
  pose proof (render_base_length rt k ss).
  destruct (repeat dotdot_elem k ++ ss); destruct s; simpl in *; (done || lia).
Qed.

(** *** Backing up over the last element *)

Lemma backtrack_over_elem (dd : nat) (t o : lazybuf) :
  Forall (fun c => is_slash c = false) t -> dd ≤ length o ->
  backtrack dd (t ++ "/"%char :: o) = o.
Proof.
  intros Ht Hdd. induction Ht as [|c t Hc _ IH]; simpl.
  - by rewrite andb_false_r.
  - rewrite Hc. simpl. rewrite andb_true_r.
    destruct (Nat.ltb_spec dd (length (t ++ "/"%char :: o))) as [|Hle]; [done|].
    rewrite length_app in Hle. simpl in Hle. lia.
Qed.

Lemma backtrack_to_base (dd : nat) (t o : lazybuf) :
  Forall (fun c => is_slash c = false) t -> t <> [] -> length o = dd ->
  backtrack dd (t ++ o) = o.
Proof.
  intros Ht Hne Hdd. induction Ht as [|c t Hc _ IH]; [done|].
  simpl. rewrite Hc, andb_true_r.
  destruct t as [|c' t].
  - simpl. destruct (Nat.ltb_spec dd (length o)); [lia | done].
  - destruct (Nat.ltb_spec dd (length ((c' :: t) ++ o))) as [|Hle].
    + by apply IH.
    + rewrite length_app in Hle. simpl in Hle. lia.
Qed.

Lemma backtrack_render (rt : bool) (k : nat) (ss : list (list ascii)) (s : list ascii) :
  (rt = true -> k = 0) -> is_elem s ->
  backtrack (length (render rt (k, []))) (rev (render rt (k, ss ++ [s])))
  = rev (render rt (k, ss)).
Proof.
  intros Hrt [Hne Hs]. rewrite render_snoc.
  assert (Forall (fun c => is_slash c = false) (rev s)) as Hrev
    by (by apply Forall_rev).
  destruct (repeat dotdot_elem k ++ ss) as [|x xs] eqn:Hxs.
  - apply app_eq_nil in Hxs as [Hk ->]. rewrite rev_app_distr.
    apply backtrack_to_base; [done | | by rewrite length_rev].
    by destruct s using rev_ind; [|rewrite rev_unit].
  - rewrite rev_app_distr. simpl. rewrite <- app_assoc. simpl.
    apply backtrack_over_elem; [done|].
    rewrite length_rev. apply render_base_length.
Qed.

(** *** The tests of the loop, on the element that starts here *)

Lemma first_elem_nil_after (p : list ascii) : first_elem p = [] -> after_elem p = p.
Proof. destruct p as [|c p]; simpl; [done|]. by destruct (is_slash c). Qed.

Lemma first_elem_no_slash (p : list ascii) :
  Forall (fun c => is_slash c = false) (first_elem p).
Proof.
  induction p as [|c p IH]; simpl; [constructor|].
  destruct (is_slash c) eqn:Hc; by constructor.
Qed.

Lemma elem_is_elem (c : ascii) (p : list ascii) :
  is_slash c = false -> is_elem (c :: first_elem p).
Proof. intros Hc. split; [done|]. constructor; [done | apply first_elem_no_slash]. Qed.

Lemma is_dot_spec (c : ascii) : is_dot c = true <-> c = "."%char.
Proof. apply Ascii.eqb_eq. Qed.

Lemma dot_test_spec (c : ascii) (p1 : list ascii) :
  is_dot c && end_or_slash p1 = true <-> c :: first_elem p1 = dot_elem.
Proof.
  rewrite andb_true_iff, is_dot_spec, end_or_slash_first_elem. unfold dot_elem.
  split; [by intros [-> ->] | by intros [= -> ->]].
Qed.

Lemma dotdot_test_spec (c : ascii) (p1 : list ascii) :
  is_dot c && is_dot (hd "/"%char p1) && end_or_slash (tl p1) = true
  <-> c :: first_elem p1 = dotdot_elem.
Proof.
  rewrite !andb_true_iff, !is_dot_spec, end_or_slash_first_elem. unfold dotdot_elem.
  destruct p1 as [|c2 p2]; simpl.
  - split; [by intros [[_ ?] _] | by intros [=]].
  - destruct (is_slash c2) eqn:Hc2.
    + split; [|by intros [=]]. intros [[_ ->] _]. done.
    + split; [by intros [[-> ->] ->] | by intros [= -> -> ->]].
Qed.

Lemma dotdot_test_tail (c : ascii) (p1 : list ascii) :
  c :: first_elem p1 = dotdot_elem -> after_elem p1 = tl p1.
Proof.
  unfold dotdot_elem. destruct p1 as [|c2 p2]; simpl; [by intros [=]|].
  destruct (is_slash c2); [by intros [=]|].
  intros [= _ _ H]. by apply first_elem_nil_after.
Qed.

Lemma plain_spec (s : list ascii) :
  plain s = true <-> s <> dot_elem /\ s <> dotdot_elem.
Proof.
  unfold plain. rewrite andb_true_iff, !negb_true_iff, !bool_decide_eq_false. done.
Qed.

(** *** One element more in the buffer *)

Lemma norm_step_ok (rt : bool) (st : nat * list (list ascii)) (s : list ascii) :
  buffer_ok rt st -> is_elem s -> buffer_ok rt (norm_step rt st s).
Proof.
  intros [Hrt Hss] Hs. unfold norm_step.
  case_bool_decide as Hdot; [done|].
  case_bool_decide as Hdd.
  - destruct st as [k ss]. simpl in *. destruct ss as [|x xs] eqn:Hxs.
    + destruct rt; [done|]. split; [done | constructor].
    + split; [done|]. rewrite <- Hxs in *. clear Hxs.
      destruct ss as [|y ys _] using rev_ind; [done|].
      rewrite removelast_last. by apply Forall_app in Hss as [? _].
  - split; [done|]. apply Forall_app. split; [done|].
    constructor; [|constructor]. split; [done|]. by apply plain_spec.
Qed.

Lemma fold_norm_step_ok (rt : bool) (path : list ascii) (st : nat * list (list ascii)) :
  buffer_ok rt st -> buffer_ok rt (fold_left (norm_step rt) (segments path) st).
Proof.
  remember (length path) as n eqn:Hn. revert path st Hn.
  induction (lt_wf n) as [n _ IH]; intros path st -> Hok.
  destruct path as [|c path]; [done|].
  destruct (is_slash c) eqn:Hc.
  - rewrite segments_slash by done. eapply IH; [|done|done]. simpl; lia.
  - rewrite segments_elem by done. simpl.
    eapply IH; [|done|]; [pose proof (after_elem_length path); simpl; lia|].
    apply norm_step_ok; [done | by apply elem_is_elem].
Qed.

(** *** The loop follows [norm_step] *)

Lemma render_dotdot (k : nat) :
  render false (S k, []) = render false (k, [] ++ [dotdot_elem]).
Proof.
  unfold render. cbn [fst snd]. rewrite !app_nil_r.
  by rewrite <- repeat_cons.
Qed.

Lemma buffer_elems_nonempty (rt : bool) (k : nat) (ss : list (list ascii)) :
  buffer_ok rt (k, ss) -> Forall (fun s => s <> []) (repeat dotdot_elem k ++ ss).
Proof.
  intros [_ Hss]. apply Forall_app. split; [apply dotdots_nonempty|].
  by apply elems_nonempty.
Qed.

Lemma slash_needed (rt : bool) (k : nat) (ss : list (list ascii)) (o : lazybuf) :
  buffer_ok rt (k, ss) ->
  (if (rt && negb (length (render rt (k, ss)) =? 1))
      || (negb rt && negb (length (render rt (k, ss)) =? 0))
   then "/"%char :: o else o)
  = match repeat dotdot_elem k ++ ss with [] => o | _ => "/"%char :: o end.
Proof.
  intros Hok. pose proof (buffer_elems_nonempty rt k ss Hok) as Hne.
  unfold render. cbn [fst snd].
  destruct (repeat dotdot_elem k ++ ss) as [|x xs] eqn:Hxs.
  - by destruct rt.
  - apply Forall_cons_1 in Hne as [Hx _].
    destruct rt; simpl; destruct x; simpl; done.
Qed.

Lemma dotdot_appended (k : nat) :
  "."%char :: "."%char
    :: (if 0 <? length (render false (k, []))
        then "/"%char :: rev (render false (k, []))
        else rev (render false (k, [])))
  = rev (render false (S k, [])).
Proof.
  rewrite render_dotdot, render_snoc, rev_app_distr, app_nil_r.
  unfold render. simpl. rewrite app_nil_r. by destruct k.
Qed.

Lemma norm_step_dot rt st : norm_step rt st dot_elem = st.
Proof. unfold norm_step. by rewrite bool_decide_eq_true_2. Qed.

Lemma norm_step_dotdot_base rt k :
  norm_step rt (k, []) dotdot_elem = if rt then (k, []) else (S k, []).
Proof. done. Qed.

Lemma norm_step_dotdot_back rt k xs x :
  norm_step rt (k, xs ++ [x]) dotdot_elem = (k, xs).
Proof.
  unfold norm_step. simpl. rewrite removelast_last. by destruct xs.
Qed.

Lemma norm_step_plain rt k ss s :
  s <> dot_elem -> s <> dotdot_elem -> norm_step rt (k, ss) s = (k, ss ++ [s]).
Proof. intros H1 H2. unfold norm_step. by rewrite !bool_decide_eq_false_2. Qed.

Lemma clean_loop_sim (fuel : nat) (rt : bool) (path : list ascii)
    (st : nat * list (list ascii)) :
  length path ≤ fuel -> buffer_ok rt st ->
  clean_loop fuel rt path (rev (render rt st)) (length (render rt (st.1, [])))
  = Some (rev (render rt (fold_left (norm_step rt) (segments path) st))).
Proof.
  revert path st. induction fuel as [|fuel IH]; intros path st Hlen Hok.
  { destruct path; simpl in *; [done | lia]. }
  destruct path as [|c p1]; [done|].
  cbn [clean_loop]. simpl in Hlen.
  destruct (is_slash c) eqn:Hc.
  { rewrite segments_slash by done. apply IH; [lia | done]. }
  rewrite segments_elem by done. cbn [fold_left].
  pose proof (elem_is_elem c p1 Hc) as Helem.
  pose proof (norm_step_ok rt st _ Hok Helem) as Hok'.
  pose proof (after_elem_length p1) as Hafter.
  destruct (is_dot c && end_or_slash p1) eqn:Hdot.
  { apply dot_test_spec in Hdot. rewrite Hdot, norm_step_dot in *.
    replace (after_elem p1) with p1; [apply IH; [lia | done]|].
    symmetry. apply first_elem_nil_after. by inversion Hdot. }
  assert (c :: first_elem p1 <> dot_elem) as Hndot.
  { intros H. apply dot_test_spec in H. congruence. }
  destruct st as [k ss]. cbn [fst snd] in *. rewrite length_rev.
  destruct (is_dot c && is_dot (hd "/"%char p1) && end_or_slash (tl p1)) eqn:Hdd.
  - apply dotdot_test_spec in Hdd.
    rewrite <- (dotdot_test_tail c p1 Hdd). rewrite Hdd in *.
    destruct ss as [|x xs _] using rev_ind.
    + rewrite Nat.ltb_irrefl. rewrite norm_step_dotdot_base in *.
      destruct rt; simpl negb; cbv iota.
      * apply (IH _ (k, [])); [lia | done].
      * rewrite dotdot_appended, length_rev.
        apply (IH _ (S k, [])); [lia | done].
    + rewrite norm_step_dotdot_back in *.
      destruct (Nat.ltb_spec (length (render rt (k, []))) (length (render rt (k, xs ++ [x]))))
        as [_|Hle].
      2:{ pose proof (render_base_length_lt rt k (xs ++ [x])) as Hlt.
          destruct Hok as [_ Hss]. specialize (Hlt (elems_nonempty _ Hss)).
          assert (xs ++ [x] <> []) as Hne by (by destruct xs).
          specialize (Hlt Hne). lia. }
      destruct Hok as [Hrt Hss]. cbn [fst snd] in Hrt, Hss.
      apply Forall_app in Hss as [Hxs [[Hx _] _]%Forall_cons_1].
      rewrite backtrack_render by done.
      apply (IH _ (k, xs)); [lia | done].
  - assert (c :: first_elem p1 <> dotdot_elem) as Hndd.
    { intros H. apply dotdot_test_spec in H. congruence. }
    rewrite norm_step_plain in * by done.
    rewrite copy_elem_spec. rewrite slash_needed by done.
    replace (rev (first_elem (c :: p1)) ++ _)
      with (rev (render rt (k, ss ++ [c :: first_elem p1]))).
    2:{ rewrite render_snoc, rev_app_distr. cbn [first_elem]. rewrite Hc.
        destruct (repeat dotdot_elem k ++ ss); simpl; by rewrite <- ?app_assoc. }
    cbn [after_elem]. rewrite Hc.
    apply (IH _ (k, ss ++ [c :: first_elem p1])); [lia | done].
Qed.

(** *** [Clean] and [Join], on elements *)

Lemma render_nil_length (rt : bool) (st : nat * list (list ascii)) :
  (length (rev (render rt st)) =? 0) = match render rt st with [] => true | _ => false end.
Proof. rewrite length_rev. by destruct (render rt st). Qed.

Lemma clean_bytes_spec (c : ascii) (p1 : list ascii) :
  clean_bytes (c :: p1) = Some (cleaned (is_slash c) (segments (c :: p1))).
Proof.
  unfold clean_bytes, cleaned, norm_elems.
  destruct (is_slash c) eqn:Hc.
  - rewrite segments_slash by done.
    pose proof (clean_loop_sim (length (c :: p1)) true p1 (0, [])) as H.
    change (rev (render true (0, []))) with ["/"%char] in H.
    change (length (render true ((0, []).1, []))) with 1 in H.
    rewrite H; [|simpl; lia | by split].
    rewrite render_nil_length, rev_involutive.
    by destruct (render true _).
  - pose proof (clean_loop_sim (length (c :: p1)) false (c :: p1) (0, [])) as H.
    change (rev (render false (0, []))) with (@nil ascii) in H.
    change (length (render false ((0, []).1, []))) with 0 in H.
    rewrite H; [|simpl; lia | by split].
    rewrite render_nil_length, rev_involutive.
    by destruct (render false _).
Qed.

(** [path.Join(p, "/", c)] is the cleaned list of the elements of [p]
    followed by those of [c]; it is rooted when [p] is rooted or empty. *)
Lemma Join_cleaned (p c : string) :
  Join [p; "/"; c]
  = string_of_list_ascii
      (cleaned (rooted p || String.eqb p "") (segments_of p ++ segments_of c)).
Proof.
  rewrite Join_slash_unfold. unfold Clean.
  rewrite <- segments_joined.
  pose proof (join_buf_slash_bytes p c) as Hb.
  destruct (list_ascii_of_string (join_buf [p; "/"; c] "")) as [|a bs] eqn:Hbs.
  { destruct (String.eqb p ""); [done|]. by destruct (list_ascii_of_string p). }
  rewrite clean_bytes_spec. do 2 f_equal.
  destruct p as [|a' p]; simpl in Hb; [by inversion Hb|].
  inversion Hb; subst. simpl. by rewrite orb_false_r.
Qed.

(** *** The cleaned form is a fixed point *)

Lemma no_slash_elem (t : list ascii) :
  Forall (fun c => is_slash c = false) t -> first_elem t = t /\ after_elem t = [].
Proof.
  induction 1 as [|c t Hc _ [IH1 IH2]]; [done|]. simpl. rewrite Hc.
  by rewrite IH1, IH2.
Qed.

Lemma segments_single (x : list ascii) : is_elem x -> segments x = [x].
Proof.
  intros [Hne Hx]. destruct x as [|c t]; [done|].
  apply Forall_cons_1 in Hx as [Hc Ht]. rewrite segments_elem by done.
  destruct (no_slash_elem t Ht) as [H1 H2]. by rewrite H1, H2.
Qed.

Lemma join_segments_cons (x : list ascii) (xs : list (list ascii)) :
  join_segments (x :: xs)
  = match xs with [] => x | _ => x ++ "/"%char :: join_segments xs end.
Proof. destruct xs as [|y ys]; simpl; [by rewrite app_nil_r | done]. Qed.

Lemma segments_join_segments (xs : list (list ascii)) :
  Forall is_elem xs -> segments (join_segments xs) = xs.
Proof.
  induction 1 as [|x xs Hx Hxs IH]; [done|].
  rewrite join_segments_cons. destruct xs as [|y ys]; [by apply segments_single|].
  by rewrite segments_app_slash, IH, segments_single.
Qed.

Lemma is_elem_dotdot : is_elem dotdot_elem.
Proof. split; [done | by repeat constructor]. Qed.

Lemma buffer_is_elems (rt : bool) (k : nat) (ss : list (list ascii)) :
  buffer_ok rt (k, ss) -> Forall is_elem (repeat dotdot_elem k ++ ss).
Proof.
  intros [_ Hss]. apply Forall_app. split.
  - clear Hss. induction k; simpl; [constructor|].
    constructor; [apply is_elem_dotdot | done].
  - eapply Forall_impl; [exact Hss|]. by intros s [? _].
Qed.

Lemma fold_norm_dotdots (j k : nat) :
  fold_left (norm_step false) (repeat dotdot_elem k) (j, []) = (k + j, []).
Proof.
  revert j. induction k as [|k IH]; intros j; [done|].
  simpl. rewrite norm_step_dotdot_base, IH. f_equal. lia.
Qed.

Lemma fold_norm_plain (rt : bool) (k : nat) (acc ss : list (list ascii)) :
  Forall (fun s => is_elem s /\ plain s = true) ss ->
  fold_left (norm_step rt) ss (k, acc) = (k, acc ++ ss).
Proof.
  intros Hss. revert acc. induction Hss as [|s ss [_ Hs] _ IH]; intros acc.
  - by rewrite app_nil_r.
  - apply plain_spec in Hs as [H1 H2]. simpl.
    rewrite norm_step_plain, IH by done. by rewrite <- app_assoc.
Qed.

Lemma norm_elems_buffer (rt : bool) (k : nat) (ss : list (list ascii)) :
  buffer_ok rt (k, ss) -> norm_elems rt (repeat dotdot_elem k ++ ss) = (k, ss).
Proof.
  intros [Hrt Hss]. cbn [fst snd] in *. unfold norm_elems. rewrite fold_left_app.
  destruct rt.
  - rewrite (Hrt eq_refl). simpl. by apply fold_norm_plain.
  - rewrite fold_norm_dotdots, Nat.add_0_r. by apply fold_norm_plain.
Qed.

Lemma render_head (rt : bool) (k : nat) (ss : list (list ascii)) (c : ascii) (r : list ascii) :
  buffer_ok rt (k, ss) -> render rt (k, ss) = c :: r -> is_slash c = rt.
Proof.
  intros Hok. pose proof (buffer_is_elems rt k ss Hok) as Hel.
  unfold render. cbn [fst snd]. destruct rt; simpl; [by intros [= <- _]|].
  destruct (repeat dotdot_elem k ++ ss) as [|x xs]; [done|].
  apply Forall_cons_1 in Hel as [[Hne Hx] _].
  destruct x as [|c' x]; [done|]. apply Forall_cons_1 in Hx as [Hc' _].
  simpl. by intros [= <- _].
Qed.

Lemma fold_norm_ok (rt : bool) (elems : list (list ascii)) (st : nat * list (list ascii)) :
  Forall is_elem elems -> buffer_ok rt st ->
  buffer_ok rt (fold_left (norm_step rt) elems st).
Proof.
  intros Hel. revert st. induction Hel as [|s ss Hs _ IH]; intros st Hst; [done|].
  simpl. apply IH. by apply norm_step_ok.
Qed.

Lemma cleaned_fixed (rt : bool) (elems : list (list ascii)) :
  Forall is_elem elems ->
  clean_bytes (cleaned rt elems) = Some (cleaned rt elems).
Proof.
  intros Hel. unfold cleaned.
  assert (buffer_ok rt (norm_elems rt elems)) as Hok
    by (by apply fold_norm_ok).
  destruct (norm_elems rt elems) as [k ss].
  destruct (render rt (k, ss)) as [|c r] eqn:Hr; [done|].
  rewrite clean_bytes_spec, (render_head rt k ss c r Hok Hr).
  f_equal. unfold cleaned.
  replace (segments (c :: r)) with (repeat dotdot_elem k ++ ss).
  - by rewrite norm_elems_buffer, Hr.
  - rewrite <- Hr. unfold render. cbn [fst snd].
    pose proof (buffer_is_elems rt k ss Hok) as Hels.
    destruct rt; simpl; by rewrite segments_join_segments.
Qed.

Lemma segments_are_elems (path : list ascii) : Forall is_elem (segments path).
Proof.
  remember (length path) as n eqn:Hn. revert path Hn.
  induction (lt_wf n) as [n _ IH]; intros path ->.
  destruct path as [|c path]; [constructor|].
  destruct (is_slash c) eqn:Hc.
  - rewrite segments_slash by done. eapply IH; [|done]. simpl; lia.
  - rewrite segments_elem by done. constructor; [by apply elem_is_elem|].
    eapply IH; [|done]. pose proof (after_elem_length path). simpl; lia.
Qed.

Lemma Clean_cleaned (c : ascii) (path : string) :
  Clean (String c path)
  = string_of_list_ascii
      (cleaned (is_slash c) (segments (c :: list_ascii_of_string path))).
Proof. unfold Clean. cbn [list_ascii_of_string]. by rewrite clean_bytes_spec. Qed.

(** [Clean] is idempotent. *)
Lemma Clean_idempotent (path : string) : Clean (Clean path) = Clean path.
Proof.
  destruct path as [|c path]; [done|]. rewrite Clean_cleaned.
  unfold Clean. rewrite list_ascii_of_string_of_list_ascii.
  by rewrite cleaned_fixed by apply segments_are_elems.
Qed.

(** Every path the walk or [flatten] builds with [Join] is in cleaned
    form. *)
Lemma Join_is_clean (p c : string) : Clean (Join [p; "/"; c]) = Join [p; "/"; c].
Proof.
  rewrite Join_cleaned. unfold Clean.
  rewrite list_ascii_of_string_of_list_ascii, cleaned_fixed; [done|].
  apply Forall_app. split; apply segments_are_elems.
Qed.

(** *** No trailing separator in a cleaned path *)

Lemma join_segments_last (xs : list (list ascii)) :
  Forall is_elem xs -> xs <> [] ->
  exists c, last (join_segments xs) = Some c /\ is_slash c = false.
Proof.
  intros Hxs Hne. destruct xs as [|x xs' _] using rev_ind; [done|].
  apply Forall_app in Hxs as [_ [[Hx Hxc] _]%Forall_cons_1].
  rewrite join_segments_snoc.
  destruct x as [|c x _] using rev_ind; [done|].
  apply Forall_app in Hxc as [_ [Hc _]%Forall_cons_1].
  exists c. split; [|done].
  destruct xs'; by rewrite ?app_comm_cons, !app_assoc, last_snoc.
Qed.

Lemma render_last (rt : bool) (k : nat) (ss : list (list ascii)) :
  buffer_ok rt (k, ss) ->
  render rt (k, ss) = [] \/ render rt (k, ss) = ["/"%char]
  \/ exists c, last (render rt (k, ss)) = Some c /\ is_slash c = false.
Proof.
  intros Hok. pose proof (buffer_is_elems rt k ss Hok) as Hxs.
  unfold render. cbn [fst snd].
  destruct (repeat dotdot_elem k ++ ss) as [|x xs] eqn:Hx.
  - destruct rt; [right; by left | by left].
  - right. right.
    destruct (join_segments_last (x :: xs) Hxs) as (c' & Hlast & Hc'); [done|].
    exists c'. split; [|done].
    destruct rt; [|done].
    destruct (join_segments (x :: xs)) eqn:Hj; [done | exact Hlast].
Qed.

Lemma cleaned_last (rt : bool) (elems : list (list ascii)) :
  Forall is_elem elems ->
  cleaned rt elems = ["/"%char]
  \/ exists c, last (cleaned rt elems) = Some c /\ is_slash c = false.
Proof.
  intros Hel. unfold cleaned.
  pose proof (fold_norm_ok rt elems (0, []) Hel) as Hok.
  fold (norm_elems rt elems) in Hok. specialize (Hok ltac:(by split)).
  destruct (norm_elems rt elems) as [k ss].
  destruct (render_last rt k ss Hok) as [Hr | [Hr | Hr]].
  - rewrite Hr. right. by exists "."%char.
  - rewrite Hr. by left.
  - destruct (render rt (k, ss)); [|by right].
    destruct Hr as (? & [=] & _).
Qed.

(** Without [.] and [..] elements nothing is removed: the join is the
    elements of both paths with one separator between any two. *)
Lemma Join_plain (p c : string) :
  forallb plain (segments_of p ++ segments_of c) = true ->
  Join [p; "/"; c] = joined_once p c.
Proof.
  intros Hpl. rewrite Join_cleaned. unfold joined_once. f_equal.
  unfold cleaned, norm_elems.
  rewrite (fold_norm_plain _ 0 []).
  2:{ apply Forall_forall. intros s Hs. split.
      - revert s Hs. apply Forall_forall, Forall_app.
        split; apply segments_are_elems.
      - apply (proj1 (forallb_forall _ _) Hpl). by apply list_elem_of_In. }
  unfold render. cbn [fst snd repeat app].
  destruct p as [|a p]; [done|]. unfold rooted. rewrite orb_false_r.
  destruct (is_slash a) eqn:Ha; [done|]. simpl app at 1 3.
  unfold segments_of at 1 3. cbn [list_ascii_of_string].
  rewrite segments_elem by done. done.
Qed.

(** C8 (amended). For a string child name [c] of the listing of [key], the
    path the loop recurses into is the cleaned list of the elements of [key]
    followed by those of [c]: [.] elements are dropped, a [..] element
    removes the plain element before it (it is dropped at the root and kept
    in front of a relative path), the elements left are written with
    exactly one ['/'] between any two, after a ['/'] when [key] is rooted or
    empty. When no element is left the result is [/] alone if [key] is
    rooted or empty, and [.] otherwise. When no element is [.] or [..],
    these are the elements of [key] followed by those of [c], unchanged.
    Entries of the listing that are not strings are skipped, and the loop
    goes on with the next entry. *)
Theorem child_path_joined_once
    (walk : string -> Vault.walk_state -> option (Vault.walk_state * option Vault.error))
    (key c : string) (rest : list Vault.value) (st : Vault.walk_state) :
  Vault.walk_children walk key (Vault.VString c :: rest) st
  = match walk (string_of_list_ascii
                  (cleaned (rooted key || String.eqb key "")
                     (segments_of key ++ segments_of c))) st with
    | None => None
    | Some (st', _) => Vault.walk_children walk key rest st'
    end
  /\ (forallb plain (segments_of key ++ segments_of c) = true ->
      string_of_list_ascii
        (cleaned (rooted key || String.eqb key "") (segments_of key ++ segments_of c))
      = joined_once key c)
  /\ (forall v, (forall s, v <> Vault.VString s) ->
        Vault.walk_children walk key (v :: rest) st = Vault.walk_children walk key rest st)
  /\ (norm_elems (rooted key || String.eqb key "") (segments_of key ++ segments_of c)
      = (0, []) ->
      Join [key; "/"; c] = if rooted key || String.eqb key "" then "/" else ".").
Proof.
  split_and!.
  - cbn [Vault.walk_children]. by rewrite Join_cleaned.
  - intros Hplain. rewrite <- Join_cleaned. unfold joined_once. by apply Join_plain.
  - intros v Hv. destruct v; try done. by destruct (Hv s).
  - intros Hnone. rewrite Join_cleaned. unfold cleaned. rewrite Hnone.
    by destruct (rooted key || String.eqb key "").
Qed.

End CleanFacts.

(** ** The tree walk *)

Module WalkFacts.

Import GoPath Vault VaultShape DiscoveryShape.

(** *** Paths built by [Join] need no stripping *)

Lemma string_get_last (x : string) :
  String.get (String.length x - 1) x = last (list_ascii_of_string x).
Proof.
  induction x as [|c x IH]; [done|]. simpl. rewrite Nat.sub_0_r.
  destruct x as [|c' x]; [done|]. simpl in *. by rewrite Nat.sub_0_r in IH.
Qed.

Lemma strip_slash_no_trailing (x : string) :
  (forall c, last (list_ascii_of_string x) = Some c -> is_slash c = false) ->
  strip_slash x = x.
Proof.
  intros Hlast. unfold strip_slash.
  replace (Z.to_nat (Z.of_nat (String.length x) - 1)) with (String.length x - 1) by lia.
  rewrite string_get_last.
  destruct (last (list_ascii_of_string x)) as [c|]; [|by rewrite andb_false_r].
  by rewrite (Hlast c eq_refl), andb_false_r.
Qed.

Lemma Join_stripped (p c : string) :
  strip_slash (Join [p; "/"; c]) = Join [p; "/"; c].
Proof.
  rewrite CleanFacts.Join_cleaned.
  destruct (CleanFacts.cleaned_last (PathShape.rooted p || String.eqb p "")
              (PathShape.segments_of p ++ PathShape.segments_of c)) as [-> | (c' & Hlast & Hc')].
  - apply Forall_app. split; apply CleanFacts.segments_are_elems.
  - done.
  - apply strip_slash_no_trailing. intros c0.
    rewrite list_ascii_of_string_of_list_ascii, Hlast. by intros [= <-].
Qed.

(** The path the walk visits for a listed child is in cleaned form. *)
Lemma listed_child_clean (p c : string) :
  Clean (strip_slash (Join [p; "/"; c])) = strip_slash (Join [p; "/"; c]).
Proof. rewrite Join_stripped. apply CleanFacts.Join_is_clean. Qed.

Section Walk.

Variable Logical_List : string -> option Secret * option error.

Abbreviation walkTree := (Vault.walkTree Logical_List).
Abbreviation walk_prefixes := (Vault.walk_prefixes Logical_List).
Abbreviation new_closed := (new_paths_closed Logical_List).

(** One unfolding of [walkTree], with the response read through [listing]. *)
Lemma walkTree_unfold (fuel : nat) (key : string) (st : walk_state) :
  walkTree (S fuel) key st =
    let key := strip_slash key in
    if decide (key ∈ branches st) then Some (st, None)
    else
      let st := record (EvList key) (visit key st) in
      match (Logical_List key).2 with
      | Some err => Some (st, Some err)
      | None => walk_children (walkTree fuel) key (listing (Logical_List key)) st
      end.
Proof.
  cbn [Vault.walkTree]. cbv zeta.
  destruct (decide (strip_slash key ∈ branches st)); [done|].
  unfold listing.
  destruct (Logical_List (strip_slash key)) as [[resp|] [err|]]; try done.
  simpl. destruct (Data resp) as [data|]; [|done].
  destruct (map_get data "keys") as [[]|]; done.
Qed.


(** Whatever the step "visit, then list" preserves, the walk preserves. *)
Lemma walk_children_preserves (P : walk_state -> Prop) walk key keyList st st' r :
  (forall k s s' r', walk k s = Some (s', r') -> P s -> P s') ->
  walk_children walk key keyList st = Some (st', r) -> P st -> P st'.
Proof.
  intros Hwalk. revert st. induction keyList as [|v l IH]; intros st; simpl.
  - by intros [= <- _].
  - destruct v; try apply IH.
    destruct (walk _ st) as [[st1 r1]|] eqn:Hw; [|done].
    intros Hl HP. apply (IH st1 Hl). by eapply Hwalk.
Qed.

Lemma walkTree_preserves (P : walk_state -> Prop) :
  (forall key st, P st -> key ∉ branches st -> P (record (EvList key) (visit key st))) ->
  forall fuel key st st' r, walkTree fuel key st = Some (st', r) -> P st -> P st'.
Proof.
  intros Hstep. induction fuel as [|fuel IH]; intros key st st' r; [done|].
  rewrite walkTree_unfold. cbv zeta.
  destruct (decide (strip_slash key ∈ branches st)) as [|Hnew]; [by intros [= <- _]|].
  destruct (Logical_List (strip_slash key)).2.
  - intros [= <- _] HP. by apply Hstep.
  - intros Hc HP. eapply walk_children_preserves; [apply IH | apply Hc |].
    by apply Hstep.
Qed.

Lemma walk_prefixes_preserves (P : walk_state -> Prop) :
  (forall key st, P st -> key ∉ branches st -> P (record (EvList key) (visit key st))) ->
  forall fuel keys st st', walk_prefixes fuel keys st = Some st' -> P st -> P st'.
Proof.
  intros Hstep fuel keys. induction keys as [|key keys IH]; intros st st'; simpl.
  - by intros [= <-].
  - destruct (walkTree fuel key st) as [[st1 r]|] eqn:Hw; [|done].
    intros Hl HP. apply (IH st1 st' Hl). by eapply walkTree_preserves.
Qed.

Lemma walk_inv_init : walk_inv init_state.
Proof.
  unfold walk_inv, visit_before_list, listed_once. simpl.
  split_and!; intros; by (simplify_list_eq || set_solver).
Qed.

Lemma walk_inv_listed st p i :
  walk_inv st -> trace st !! i = Some (EvList p) -> p ∈ branches st.
Proof.
  intros (Hv & _ & Hb) Hi. destruct (Hv i p Hi) as (j & _ & Hj).
  apply Hb. by eapply list_elem_of_lookup_2.
Qed.

Lemma walk_inv_step key st :
  walk_inv st -> key ∉ branches st -> walk_inv (record (EvList key) (visit key st)).
Proof.
  intros Hinv Hnew. pose proof Hinv as (Hv & Ho & Hb).
  unfold walk_inv, record, visit; simpl.
  set (tr := trace st) in *.
  assert (Hlast : forall i p, ((tr ++ [EvVisit key]) ++ [EvList key]) !! i = Some (EvList p) ->
            tr !! i = Some (EvList p) \/ (i = S (length tr) /\ p = key)).
  { intros i p Hi. apply lookup_app_Some in Hi as [Hi|[Hlen Hi]].
    - apply lookup_app_Some in Hi as [Hi|[Hlen Hi]]; [by left|].
      by destruct (i - length tr) as [|[]].
    - rewrite length_app in Hlen, Hi. simpl in *.
      destruct (i - (length tr + 1)) as [|[]] eqn:Hd; simpl in Hi; simplify_eq.
      right. split; [lia|done]. }
  split_and!.
  - intros i p Hi. destruct (Hlast i p Hi) as [Hi'|[-> ->]].
    + destruct (Hv i p Hi') as (j & Hj & Hj'). exists j. split; [done|].
      rewrite <- app_assoc. by apply lookup_app_l_Some.
    + exists (length tr). split; [lia|].
      rewrite lookup_app_l by (rewrite length_app; simpl; lia).
      by rewrite list_lookup_middle.
  - intros i j p Hi Hj.
    destruct (Hlast i p Hi) as [Hi'|[Ei Ep]]; destruct (Hlast j p Hj) as [Hj'|[Ej Ep']];
      subst.
    + by eapply Ho.
    + by apply (walk_inv_listed st key i Hinv) in Hi'.
    + by apply (walk_inv_listed st key j Hinv) in Hj'.
    + done.
  - intros p Hp. rewrite !elem_of_app, !list_elem_of_singleton in Hp.
    destruct Hp as [[Hp|Hp]|Hp]; simplify_eq; [|set_solver].
    apply Hb in Hp. set_solver.
Qed.

Lemma walk_prefixes_inv fuel keys st :
  walk_prefixes fuel keys init_state = Some st -> walk_inv st.
Proof.
  intros H. eapply (walk_prefixes_preserves walk_inv); [|apply H|apply walk_inv_init].
  intros key s Hs Hn. by apply walk_inv_step.
Qed.

(** *** Termination on a finite tree *)

Lemma unvisited_mono (U B B' : gset string) :
  B ⊆ B' -> size (U ∖ B') ≤ size (U ∖ B).
Proof. intros H. apply subseteq_size. set_solver. Qed.

Lemma unvisited_visit (U B : gset string) (key : string) :
  key ∈ U -> key ∉ B -> size (U ∖ ({[key]} ∪ B)) < size (U ∖ B).
Proof. intros HU HB. apply subset_size. set_solver. Qed.

Lemma walk_children_terminates (U : gset string) fuel key keyList st :
  (forall k s, strip_slash k ∈ U -> size (U ∖ branches s) < fuel ->
     exists s' r, walkTree fuel k s = Some (s', r)
                  /\ branches s ⊆ branches s' /\ branches s' ⊆ branches s ∪ U) ->
  (forall c, VString c ∈ keyList -> strip_slash (Join [key; "/"; c]) ∈ U) ->
  size (U ∖ branches st) < fuel ->
  exists st' r, walk_children (walkTree fuel) key keyList st = Some (st', r)
                /\ branches st ⊆ branches st' /\ branches st' ⊆ branches st ∪ U.
Proof.
  intros Hwalk. revert st. induction keyList as [|v l IH]; intros st Hin Hsz; simpl.
  - eexists _, _. split; [done | set_solver].
  - assert (Hl : forall c, VString c ∈ l -> strip_slash (Join [key; "/"; c]) ∈ U)
      by (intros c Hc; apply Hin; by right).
    destruct v as [| | |s| |]; try by apply IH.
    destruct (Hwalk (Join [key; "/"; s]) st) as (s1 & r1 & -> & Hsub & Hin1);
      [apply Hin; by left | done |].
    destruct (IH s1 Hl) as (st' & r & -> & Hsub' & Hin').
    + pose proof (unvisited_mono U _ _ Hsub). lia.
    + eexists _, _. split; [done | set_solver].
Qed.

Lemma walkTree_terminates (U : gset string) :
  closed_under_listing Logical_List U ->
  forall fuel key st, strip_slash key ∈ U -> size (U ∖ branches st) < fuel ->
    exists st' r, walkTree fuel key st = Some (st', r)
                  /\ branches st ⊆ branches st' /\ branches st' ⊆ branches st ∪ U.
Proof.
  intros Hclosed. induction fuel as [|fuel IH]; intros key st HU Hsz; [lia|].
  rewrite walkTree_unfold. cbv zeta.
  destruct (decide (strip_slash key ∈ branches st)) as [|Hnew].
  { eexists _, _. split; [done | set_solver]. }
  pose proof (unvisited_visit U _ _ HU Hnew) as Hlt.
  destruct (Logical_List (strip_slash key)).2 eqn:Herr.
  - eexists _, _. split; [done|]. simpl. set_solver.
  - destruct (walk_children_terminates U fuel (strip_slash key)
                (listing (Logical_List (strip_slash key)))
                (record (EvList (strip_slash key)) (visit (strip_slash key) st)))
      as (st' & r & -> & Hsub & Hin).
    + apply IH.
    + intros c Hc. by apply Hclosed.
    + simpl. lia.
    + eexists _, _. split; [done|]. simpl in Hsub, Hin. set_solver.
Qed.

Lemma walk_prefixes_terminates (U : gset string) :
  closed_under_listing Logical_List U ->
  forall fuel keys st, Forall (fun k => strip_slash k ∈ U) keys ->
    size (U ∖ branches st) < fuel ->
    exists st', walk_prefixes fuel keys st = Some st'
                /\ branches st ⊆ branches st' /\ branches st' ⊆ branches st ∪ U.
Proof.
  intros Hclosed fuel keys. induction keys as [|key keys IH]; intros st HU Hsz; simpl.
  - eexists. split; [done | set_solver].
  - apply Forall_cons_1 in HU as [Hk HU].
    destruct (walkTree_terminates U Hclosed fuel key st Hk Hsz) as (s1 & r & -> & Hsub & Hin).
    destruct (IH s1 HU) as (st' & -> & Hsub' & Hin').
    + pose proof (unvisited_mono U _ _ Hsub). lia.
    + eexists. split; [done | set_solver].
Qed.

(** *** More fuel does not change a result *)

Lemma walk_children_mono walk1 walk2 key keyList st r :
  (forall k s r', walk1 k s = Some r' -> walk2 k s = Some r') ->
  walk_children walk1 key keyList st = Some r ->
  walk_children walk2 key keyList st = Some r.
Proof.
  intros Hmono. revert st. induction keyList as [|v l IH]; intros st; simpl; [done|].
  destruct v; try apply IH.
  destruct (walk1 _ st) as [[st1 r1]|] eqn:Hw; [|done].
  rewrite (Hmono _ _ _ Hw). apply IH.
Qed.

Lemma walkTree_fuel_mono fuel fuel' key st r :
  fuel ≤ fuel' -> walkTree fuel key st = Some r -> walkTree fuel' key st = Some r.
Proof.
  revert fuel' key st r. induction fuel as [|fuel IH]; intros fuel' key st r Hle; [done|].
  destruct fuel' as [|fuel']; [lia|].
  rewrite !walkTree_unfold. cbv zeta.
  destruct (decide (strip_slash key ∈ branches st)); [done|].
  destruct (Logical_List (strip_slash key)).2; [done|].
  apply walk_children_mono. intros k s r'. apply IH. lia.
Qed.

Lemma walk_prefixes_fuel_mono fuel fuel' keys st st' :
  fuel ≤ fuel' -> walk_prefixes fuel keys st = Some st' ->
  walk_prefixes fuel' keys st = Some st'.
Proof.
  intros Hle. revert st. induction keys as [|key keys IH]; intros st; simpl; [done|].
  destruct (walkTree fuel key st) as [[st1 r]|] eqn:Hw; [|done].
  rewrite (walkTree_fuel_mono _ _ _ _ _ Hle Hw). apply IH.
Qed.

(** *** What a walk leaves behind *)

Lemma listing_error (r : option Secret * option error) (e : error) :
  r.2 = Some e -> listing r = [].
Proof. destruct r as [[resp|] [e'|]]; simpl; by intros [=]. Qed.

Lemma new_closed_refl st : new_closed st st.
Proof. split; [done|]. by intros p c Hp Hn. Qed.

Lemma new_closed_trans st1 st2 st3 :
  new_closed st1 st2 -> new_closed st2 st3 -> new_closed st1 st3.
Proof.
  intros [Hs12 Hc12] [Hs23 Hc23]. split; [set_solver|].
  intros p c Hp Hn Hc. destruct (decide (p ∈ branches st2)) as [Hp2|Hp2].
  - apply Hs23. by apply Hc12.
  - by apply Hc23.
Qed.

Lemma walk_children_closed walk key keyList st st' r :
  (forall k s s' r', walk k s = Some (s', r') ->
     new_closed s s' /\ strip_slash k ∈ branches s') ->
  walk_children walk key keyList st = Some (st', r) ->
  new_closed st st'
  /\ forall c, VString c ∈ keyList -> strip_slash (Join [key; "/"; c]) ∈ branches st'.
Proof.
  intros Hwalk. revert st. induction keyList as [|v l IH]; intros st; simpl.
  - intros [= <- _]. split; [apply new_closed_refl | by intros c ?%elem_of_nil].
  - assert (forall s, walk_children walk key l s = Some (st', r) ->
              new_closed s st' /\
              forall c, VString c ∈ v :: l -> v <> VString c ->
                strip_slash (Join [key; "/"; c]) ∈ branches st') as Hrest.
    { intros s Hs. destruct (IH s Hs) as [Hcl Hin]. split; [done|].
      intros c [->|Hc]%elem_of_cons Hne; [done | by apply Hin]. }
    destruct v as [| | |s| |]; try (intros Hl; destruct (Hrest st Hl) as [Hcl Hin];
      split; [done | intros c Hc; by apply Hin]).
    destruct (walk _ st) as [[st1 r1]|] eqn:Hw; [|done].
    intros Hl. destruct (Hwalk _ _ _ _ Hw) as [Hcl1 Hk1].
    destruct (IH st1 Hl) as [Hcl Hin].
    split; [by eapply new_closed_trans|].
    intros c [[= ->]|Hc]%elem_of_cons; [|by apply Hin].
    destruct Hcl as [Hsub _]. by apply Hsub.
Qed.

Lemma walkTree_closed fuel key st st' r :
  walkTree fuel key st = Some (st', r) ->
  new_closed st st' /\ strip_slash key ∈ branches st'.
Proof.
  revert key st st' r. induction fuel as [|fuel IH]; intros key st st' r; [done|].
  rewrite walkTree_unfold. cbv zeta.
  destruct (decide (strip_slash key ∈ branches st)) as [Hin|Hnew].
  { intros [= <- _]. split; [apply new_closed_refl | done]. }
  set (k := strip_slash key) in *.
  set (st1 := record (EvList k) (visit k st)).
  assert (branches st1 = {[k]} ∪ branches st) as Hb1 by done.
  destruct (Logical_List k).2 as [e|] eqn:Herr.
  - intros [= <- _]. split; [|set_solver]. split; [set_solver|].
    intros p c Hp Hn. assert (p = k) as -> by set_solver.
    by rewrite (listing_error _ e Herr); intros ?%elem_of_nil.
  - intros Hc. destruct (walk_children_closed _ _ _ _ _ _ IH Hc) as [[Hsub Hcl] Hin].
    split; [|set_solver]. split; [set_solver|].
    intros p c Hp Hn Hl. destruct (decide (p = k)) as [->|Hne]; [by apply Hin|].
    apply Hcl; [done | set_solver | done].
Qed.

Lemma walk_prefixes_closed fuel keys st st' :
  walk_prefixes fuel keys st = Some st' ->
  new_closed st st' /\ Forall (fun k => strip_slash k ∈ branches st') keys.
Proof.
  revert st. induction keys as [|key keys IH]; intros st; simpl.
  - intros [= <-]. split; [apply new_closed_refl | constructor].
  - destruct (walkTree fuel key st) as [[st1 r]|] eqn:Hw; [|done].
    intros Hl. destruct (walkTree_closed _ _ _ _ _ Hw) as [Hcl1 Hk].
    destruct (IH st1 Hl) as [Hcl Hkeys].
    split; [by eapply new_closed_trans|]. constructor; [|done].
    destruct Hcl as [Hsub _]. set_solver.
Qed.



(** *** Stripping the trailing slash *)

Lemma string_length_app (a b : string) :
  String.length (a +:+ b) = String.length a + String.length b.
Proof. induction a as [|c a IH]; simpl; [done | by rewrite IH]. Qed.

Lemma string_get_app_end (a : string) (c : ascii) (b : string) :
  String.get (String.length a) (a +:+ String c b) = Some c.
Proof. induction a as [|c' a IH]; simpl; done. Qed.

Lemma string_substring_app (a b : string) :
  String.substring 0 (String.length a) (a +:+ b) = a.
Proof.
  induction a as [|c a IH]; simpl; [by destruct b | by rewrite IH].
Qed.

Lemma strip_slash_app_slash (key : string) :
  key <> "" -> strip_slash (key +:+ "/") = key.
Proof.
  intros Hne. unfold strip_slash. rewrite string_length_app. simpl.
  replace (Z.to_nat (Z.of_nat (String.length key + 1) - 1)) with (String.length key) by lia.
  rewrite string_get_app_end, string_substring_app.
  destruct (Z.ltb_spec 0 (Z.of_nat (String.length key + 1) - 1)) as [|Hle]; [done|].
  destruct key; [done | simpl in Hle; lia].
Qed.

(** The walk sees a key only through [strip_slash]. *)
Lemma walkTree_strip (fuel : nat) (k1 k2 : string) (st : walk_state) :
  strip_slash k1 = strip_slash k2 -> walkTree fuel k1 st = walkTree fuel k2 st.
Proof. intros H. destruct fuel; [done|]. rewrite !walkTree_unfold. by rewrite H. Qed.

(** C7. [walkTree] strips exactly one trailing ['/'] from a key of more than
    one byte before it looks the key up in [branches]: [key/] becomes [key]
    (also when [key] itself ends in a slash), the one-byte key [/] stays as
    it is, and for a key that does not end in a slash the walk from [key/]
    is the walk from [key]: same visited set, same calls, same result. *)
Theorem strip_slash_same_discovery (fuel : nat) (key : string) (keys : list string)
    (st : walk_state) :
  key <> "" ->
  strip_slash (key +:+ "/") = key
  /\ strip_slash "/" = "/"
  /\ (strip_slash key = key ->
      walkTree fuel (key +:+ "/") st = walkTree fuel key st
      /\ walk_prefixes fuel ((key +:+ "/") :: keys) st = walk_prefixes fuel (key :: keys) st).
Proof.
  intros Hne. split; [by apply strip_slash_app_slash|]. split; [done|].
  intros Hfix.
  assert (walkTree fuel (key +:+ "/") st = walkTree fuel key st) as Hw.
  { apply walkTree_strip. by rewrite strip_slash_app_slash, Hfix. }
  split; [done|]. simpl. by rewrite Hw.
Qed.

(** C5. In a discovery run over any list of prefixes, every remote list call
    is made on a path that was put into [branches] at an earlier point of the
    run, no path is listed at two points of the run, and every listed path
    is in the resulting set. *)
Theorem visited_before_listed_once (fuel : nat) (keys : list string) (st : walk_state) :
  walk_prefixes fuel keys init_state = Some st ->
  visit_before_list (trace st)
  /\ listed_once (trace st)
  /\ (forall p, EvList p ∈ trace st -> p ∈ branches st).
Proof.
  intros Hrun. pose proof (walk_prefixes_inv fuel keys st Hrun) as Hinv.
  destruct Hinv as (Hv & Ho & Hb). split_and!; [done | done |].
  intros p Hp. apply list_elem_of_lookup in Hp as [i Hi].
  by apply (walk_inv_listed st p i).
Qed.

(** C6. If the paths of the remote tree form a finite set [U] (closed under
    the listings, and holding the stripped prefixes), discovery returns,
    whatever cycles the listings contain: there is a final state, with
    paths of [U] only, that the walk reaches as soon as the call depth
    allowed exceeds the size of [U]. A call on a path that is already
    visited returns at once, with the state unchanged and no error. *)
Theorem discovery_terminates (U : gset string) (keys : list string) :
  closed_under_listing Logical_List U ->
  Forall (fun k => strip_slash k ∈ U) keys ->
  (exists st, branches st ⊆ U
     /\ forall fuel, size U < fuel -> walk_prefixes fuel keys init_state = Some st)
  /\ (forall fuel key st, strip_slash key ∈ branches st ->
        walkTree (S fuel) key st = Some (st, None)).
Proof.
  intros Hclosed Hkeys. split.
  - destruct (walk_prefixes_terminates U Hclosed (S (size U)) keys init_state Hkeys)
      as (st & Hst & _ & Hin).
    + simpl. replace (U ∖ ∅) with U by set_solver. lia.
    + exists st. split; [simpl in Hin; set_solver|].
      intros fuel Hfuel. apply (walk_prefixes_fuel_mono (S (size U))); [lia | done].
  - intros fuel key st Hin. rewrite walkTree_unfold. cbv zeta.
    by destruct (decide (strip_slash key ∈ branches st)).
Qed.

End Walk.

End WalkFacts.

(** ** Flattening a value *)

Module FlattenFacts.

Import GoPath Vault VaultShape.

(** Induction on values, with the hypothesis for every element of a list and
    every field of a map. *)
Lemma value_induction (P : value -> Prop) :
  P VNil -> (forall b, P (VBool b)) -> (forall n, P (VNumber n)) ->
  (forall s, P (VString s)) ->
  (forall l, Forall P l -> P (VList l)) ->
  (forall m, Forall (fun kv => P kv.2) m -> P (VMap m)) ->
  forall v, P v.
Proof.
  intros HN HB HNum HS HL HM. fix IH 1. intros [|b|n|s|l|m].
  - exact HN.
  - apply HB.
  - apply HNum.
  - apply HS.
  - apply HL. induction l as [|v l IHl]; constructor; [apply IH | apply IHl].
  - apply HM. induction m as [|[k v] m IHm]; constructor; [apply IH | apply IHm].
Qed.

Lemma leaves_VMap (key : string) (m : fields) :
  leaves key (VMap m) = leaves_fields key m.
Proof.
  unfold leaves_fields. induction m as [|[k v] m IH]; [done|].
  simpl in *. by rewrite IH.
Qed.

Lemma writes_app (l1 l2 : list (string * string)) (vars : vars_map) :
  writes (l1 ++ l2) vars = writes l2 (writes l1 vars).
Proof. apply foldl_app. Qed.

Lemma flatten_VMap_cons (key k : string) (v : value) (m : fields) (vars : vars_map) :
  flatten key (VMap ((k, v) :: m)) vars
  = flatten key (VMap m) (flatten (Join [key; "/"; k]) v vars).
Proof. reflexivity. Qed.

(** [flatten] performs the writes of the leaves, in their order. *)
Lemma flatten_writes (v : value) :
  forall key vars, flatten key v vars = writes (leaves key v) vars.
Proof.
  induction v as [| | | |l _|m IH] using value_induction; intros key vars; try done.
  rewrite leaves_VMap. unfold leaves_fields. revert vars.
  induction m as [|[k v] m IHm]; intros vars; [done|].
  apply Forall_cons_1 in IH as [Hv Hm]. simpl in Hv.
  rewrite flatten_VMap_cons, (IHm Hm), Hv.
  cbn [flat_map fst snd]. by rewrite writes_app.
Qed.

Lemma writes_cons (k s : string) (l : list (string * string)) (vars : vars_map) :
  writes ((k, s) :: l) vars = writes l (<[k:=s]> vars).
Proof. reflexivity. Qed.

Lemma lookup_writes (l : list (string * string)) (vars : vars_map) (k : string) :
  writes l vars !! k = from_option Some (vars !! k) (last_write k l).
Proof.
  revert vars. induction l as [|[k' s] l IH]; intros vars; [done|].
  rewrite writes_cons, IH. cbn [last_write].
  destruct (last_write k l); [done|]. simpl.
  destruct (decide (k' = k)) as [->|Hne]; simpl.
  - by rewrite lookup_insert_eq.
  - by rewrite lookup_insert_ne.
Qed.

Lemma last_write_app (k : string) (l1 l2 : list (string * string)) :
  last_write k (l1 ++ l2)
  = from_option Some (last_write k l1) (last_write k l2).
Proof.
  induction l1 as [|[k' s] l1 IH]; simpl; [by destruct (last_write k l2)|].
  rewrite IH. destruct (last_write k l2); simpl; [done|].
  by destruct (last_write k l1).
Qed.

Lemma last_write_None (k : string) (l : list (string * string)) :
  last_write k l = None <-> k ∉ l.*1.
Proof.
  induction l as [|[k' s] l IH]; simpl; [split; [set_solver | done]|].
  rewrite not_elem_of_cons, <- IH.
  destruct (last_write k l); [naive_solver|].
  destruct (decide (k' = k)); naive_solver.
Qed.

Lemma last_write_elem (k s : string) (l : list (string * string)) :
  last_write k l = Some s -> (k, s) ∈ l.
Proof.
  induction l as [|[k' s'] l IH]; simpl; [done|].
  destruct (last_write k l).
  - intros [= ->]. right. by apply IH.
  - destruct (decide (k' = k)) as [->|]; [|done]. intros [= ->]. by left.
Qed.

(** With pairwise distinct keys, every pair of the list is its key's last
    write. *)
Lemma last_write_NoDup (k s : string) (l : list (string * string)) :
  NoDup l.*1 -> (k, s) ∈ l -> last_write k l = Some s.
Proof.
  induction l as [|[k' s'] l IH]; simpl; [by intros _ ?%elem_of_nil|].
  intros [Hnot Hnd]%NoDup_cons [[= -> ->]|Hin]%elem_of_cons.
  - apply last_write_None in Hnot. rewrite Hnot. by rewrite decide_True.
  - by rewrite (IH Hnd Hin).
Qed.

(** The last pair with the key [k] is the last write to [k]. *)
Lemma last_write_split (k s : string) (l1 l2 : list (string * string)) :
  k ∉ l2.*1 -> last_write k (l1 ++ (k, s) :: l2) = Some s.
Proof.
  intros H. apply last_write_None in H. rewrite last_write_app. simpl.
  rewrite H. by rewrite decide_True.
Qed.

Lemma last_write_is_Some (k : string) (l : list (string * string)) :
  k ∈ l.*1 -> exists s, last_write k l = Some s.
Proof.
  intros H. destruct (last_write k l) eqn:E; [by eexists|].
  by apply last_write_None in E.
Qed.

(** A key written with one value only holds that value. *)
Lemma last_write_unique (k s : string) (l : list (string * string)) :
  (k, s) ∈ l -> (forall s', (k, s') ∈ l -> s' = s) -> last_write k l = Some s.
Proof.
  intros Hin Hu. destruct (last_write_is_Some k l) as [s' Hs'].
  { apply list_elem_of_fmap. by exists (k, s). }
  rewrite Hs'. f_equal. apply Hu. by apply last_write_elem.
Qed.

End FlattenFacts.

(** ** Storing what was read *)

Module StoreFacts.

Import GoPath Vault VaultShape FlattenFacts.

(** [isKV] accepts exactly the one-field maps [{"value": s}] with a string
    [s], and returns that string. *)
Lemma isKV_true (data : fields) (s : string) :
  isKV data = (s, true) <-> data = [("value", VString s)].
Proof.
  split; [|by intros ->].
  unfold isKV. destruct data as [|[k v] [|? ?]]; simpl; try done.
  destruct (String.eqb_spec k "value") as [->|]; [|done].
  destruct v; try done. by intros [= ->].
Qed.

Lemma isKV_false (data : fields) :
  (forall s, data <> [("value", VString s)]) <-> isKV data = ("", false).
Proof.
  split.
  - intros Hne. destruct (isKV data) as [s [|]] eqn:Hkv.
    + apply isKV_true in Hkv. by destruct (Hne s).
    + unfold isKV in Hkv. destruct (length data =? 1); [|by inversion Hkv].
      destruct (map_get data "value") as [[]|]; by inversion Hkv.
  - intros Hkv s ->. done.
Qed.

Lemma isKV_ok_false (data : fields) :
  (isKV data).2 = false -> isKV data = ("", false).
Proof.
  intros H. apply isKV_false. intros s ->. done.
Qed.

(** *** The same value, its fields enumerated in another order *)

Lemma same_leaves :
  (forall v1 v2, same_value v1 v2 -> forall key, leaves key v1 ≡ₚ leaves key v2)
  /\ (forall m1 m2, same_fields m1 m2 ->
        forall key, leaves_fields key m1 ≡ₚ leaves_fields key m2).
Proof.
  apply same_value_fields_ind.
  - done.
  - intros m1 m2 _ IH key. rewrite !leaves_VMap. apply IH.
  - done.
  - intros k v1 v2 m1 m2 _ IHv _ IHm key. unfold leaves_fields. cbn [flat_map fst snd].
    by rewrite (IHv (Join [key; "/"; k])), (IHm key).
  - intros x y m key. unfold leaves_fields. cbn [flat_map].
    apply Permutation_app_swap_app.
  - intros m1 m2 m3 _ IH12 _ IH23 key. by rewrite (IH12 key).
Qed.

Lemma last_write_perm (k : string) (l1 l2 : list (string * string)) :
  NoDup l1.*1 -> l1 ≡ₚ l2 -> last_write k l1 = last_write k l2.
Proof.
  intros Hnd Hperm.
  assert (NoDup l2.*1) as Hnd2 by (by rewrite <- Hperm).
  destruct (last_write k l1) as [s|] eqn:H1.
  - apply last_write_elem in H1. rewrite Hperm in H1.
    symmetry. by apply last_write_NoDup.
  - apply last_write_None in H1. rewrite Hperm in H1.
    symmetry. by apply last_write_None.
Qed.

Lemma same_fields_single (m1 m2 : fields) :
  same_fields m1 m2 ->
  length m1 = length m2
  /\ forall k v1, m1 = [(k, v1)] ->
       exists v2, m2 = [(k, v2)] /\ forall s, v1 = VString s <-> v2 = VString s.
Proof.
  induction 1 as [|k v1 v2 m1 m2 Hv Hm [IHlen _]|x y m|m1 m2 m3 _ [IHl12 IH12] _ [IHl23 IH23]].
  - split; [done|]. intros ? ? [=].
  - split; [simpl; by rewrite IHlen|].
    intros k' v1' [= -> -> ->]. destruct m2; [|done].
    exists v2. split; [done|]. intros s. by destruct Hv.
  - split; [done|]. intros ? ? [=].
  - split; [congruence|].
    intros k v1 Hm1. destruct (IH12 k v1 Hm1) as (v2 & Hm2 & Hiff).
    destruct (IH23 k v2 Hm2) as (v3 & Hm3 & Hiff'). exists v3. split; [done|].
    intros s. by rewrite Hiff.
Qed.

Lemma same_fields_isKV (m1 m2 : fields) :
  same_fields m1 m2 -> isKV m1 = isKV m2.
Proof.
  intros [Hlen Hone]%same_fields_single. unfold isKV. rewrite <- Hlen.
  destruct m1 as [|[k v1] [|? ?]]; try done.
  destruct (Hone k v1 eq_refl) as (v2 & -> & Hiff). simpl.
  destruct (String.eqb k "value"); [|done].
  destruct v1 as [| | |s1| |], v2 as [| | |s2| |]; try done;
    match goal with
    | H : forall s, VString ?a = VString s <-> _ |- _ =>
        pose proof (proj1 (H a) eq_refl) as E; by inversion E
    | H : forall s, _ <-> VString ?b = VString s |- _ =>
        pose proof (proj2 (H b) eq_refl) as E; by inversion E
    end.
Qed.

Lemma same_fields_refl (m : fields) : same_fields m m.
Proof. induction m as [|[k v] m IH]; constructor; [constructor | done]. Qed.

Section Store.

Variable json_Marshal : fields -> string.

Abbreviation store := (Vault.store json_Marshal).

Lemma store_scalar (key s : string) (vars : vars_map) :
  store key [("value", VString s)] vars = <[key := s]> vars.
Proof. done. Qed.

(** A value that is not a scalar secret: the blob is stored, the leaves are
    written over it, and the entry at [key] is deleted. *)
Lemma store_structured (key : string) (data : fields) (vars : vars_map) :
  (isKV data).2 = false ->
  store key data vars
  = delete key (writes (leaves key (VMap data)) (<[key := json_Marshal data]> vars)).
Proof.
  intros H. unfold Vault.store. destruct (isKV data) as [val ok]. simpl in H. subst ok.
  by rewrite flatten_writes.
Qed.

Lemma store_structured_lookup (key : string) (data : fields) (vars : vars_map) (k : string) :
  (isKV data).2 = false ->
  store key data vars !! k
  = if decide (k = key) then None
    else from_option Some (vars !! k) (last_write k (leaves key (VMap data))).
Proof.
  intros H. rewrite store_structured by done.
  destruct (decide (k = key)) as [->|Hne]; [by rewrite lookup_delete_eq|].
  rewrite lookup_delete_ne by done. rewrite lookup_writes.
  by rewrite lookup_insert_ne.
Qed.

(** Outside the touched keys the map is unchanged. *)
Lemma store_outside (key : string) (data : fields) (vars : vars_map) (k : string) :
  k ∉ touched key data -> store key data vars !! k = vars !! k.
Proof.
  unfold touched. intros [Hne Hk]%not_elem_of_cons.
  destruct (isKV data) as [val [|]] eqn:Hkv; cbn [snd] in Hk.
  - apply isKV_true in Hkv as ->. rewrite store_scalar. by rewrite lookup_insert_ne.
  - rewrite store_structured_lookup by (by rewrite Hkv).
    rewrite decide_False by done. apply last_write_None in Hk. by rewrite Hk.
Qed.

(** At a touched key the new content does not depend on the map. *)
Lemma store_inside (key : string) (data : fields) (v1 v2 : vars_map) (k : string) :
  k ∈ touched key data -> store key data v1 !! k = store key data v2 !! k.
Proof.
  unfold touched. intros Hk.
  destruct (isKV data) as [val [|]] eqn:Hkv; cbn [snd] in Hk.
  - apply isKV_true in Hkv as ->. apply list_elem_of_singleton in Hk as ->.
    by rewrite !store_scalar, !lookup_insert_eq.
  - rewrite !store_structured_lookup by (by rewrite Hkv).
    destruct (decide (k = key)) as [|Hne]; [done|].
    apply elem_of_cons in Hk as [|Hk]; [done|].
    destruct (last_write k (leaves key (VMap data))) eqn:Hl; [done|].
    by apply last_write_None in Hl.
Qed.

(** C2 (amended). Storing a structured value read at [key] leaves no entry
    at [key] and changes no key other than [key] and the keys of the string
    leaves. Every leaf key other than [key] holds a leaf with that key: the
    one that [flatten] reaches last, so the only one when a single leaf has
    that key, whatever the keys of the other leaves are. *)
Theorem structured_secret_flattened (key : string) (data : fields) (vars : vars_map) :
  (isKV data).2 = false ->
  store key data vars !! key = None
  /\ (forall k, k <> key -> k ∉ (leaves key (VMap data)).*1 ->
        store key data vars !! k = vars !! k)
  /\ (forall k s l1 l2, k <> key ->
        leaves key (VMap data) = l1 ++ (k, s) :: l2 -> k ∉ l2.*1 ->
        store key data vars !! k = Some s)
  /\ (forall k, k <> key -> k ∈ (leaves key (VMap data)).*1 ->
        exists s, (k, s) ∈ leaves key (VMap data) /\ store key data vars !! k = Some s)
  /\ (forall k s, k <> key -> (k, s) ∈ leaves key (VMap data) ->
        (forall s', (k, s') ∈ leaves key (VMap data) -> s' = s) ->
        store key data vars !! k = Some s).
Proof.
  intros Hkv. split_and!.
  - rewrite store_structured_lookup by done. by rewrite decide_True.
  - intros k Hne Hk. rewrite store_structured_lookup by done.
    rewrite decide_False by done. apply last_write_None in Hk. by rewrite Hk.
  - intros k s l1 l2 Hne Hl Hk. rewrite store_structured_lookup by done.
    rewrite decide_False by done. by rewrite Hl, last_write_split.
  - intros k Hne Hk. destruct (last_write_is_Some k _ Hk) as [s Hs]. exists s.
    split; [by apply last_write_elem|].
    rewrite store_structured_lookup by done. rewrite decide_False by done.
    by rewrite Hs.
  - intros k s Hne Hin Hu. rewrite store_structured_lookup by done.
    rewrite decide_False by done. by rewrite (last_write_unique k s).
Qed.

(** A map with a field of the empty name is never a scalar secret. *)
Lemma isKV_empty_name (data1 data2 : fields) (s : string) :
  (isKV (data1 ++ ("", VString s) :: data2)).2 = false.
Proof.
  destruct (isKV _) as [val [|]] eqn:Hkv; [|done].
  apply isKV_true in Hkv. destruct data1 as [|? [|? ?]]; simplify_eq.
Qed.

(** C9 (amended). The path visited for a listed child is in cleaned form.
    For a path in cleaned form ([Clean key = key]), joining the empty name
    onto it gives the path back, and a top-level string field of the empty
    name contributes nothing: the map stored is the one the other fields
    alone produce by flattening, and it has no entry at [key]. *)
Theorem empty_field_name_dropped (key s : string) (data1 data2 : fields) (vars : vars_map) :
  (forall p c, Clean (strip_slash (Join [p; "/"; c])) = strip_slash (Join [p; "/"; c]))
  /\ (Clean key = key ->
      Join [key; "/"; ""] = key
      /\ store key (data1 ++ ("", VString s) :: data2) vars
         = delete key (writes (leaves key (VMap (data1 ++ data2))) vars)
      /\ store key (data1 ++ ("", VString s) :: data2) vars !! key = None).
Proof.
  split; [apply WalkFacts.listed_child_clean|].
  intros Hclean.
  assert (Join [key; "/"; ""] = key) as Hjoin.
  { rewrite JoinFacts.Join_empty_name; [done|]. by intros ->. }
  assert (forall k, store key (data1 ++ ("", VString s) :: data2) vars !! k
            = delete key (writes (leaves key (VMap (data1 ++ data2))) vars) !! k) as Hk.
  { intros k. rewrite store_structured_lookup by apply isKV_empty_name.
    destruct (decide (k = key)) as [->|Hne]; [by rewrite lookup_delete_eq|].
    rewrite lookup_delete_ne, lookup_writes by done.
    rewrite !leaves_VMap. unfold leaves_fields. rewrite !flat_map_app.
    cbn [flat_map fst snd leaves]. rewrite Hjoin.
    rewrite !last_write_app. cbn [app last_write].
    destruct (last_write k (flat_map _ data2)); [done|]. simpl.
    by rewrite decide_False by done. }
  split_and!; [done | by apply map_eq |]. rewrite Hk. apply lookup_delete_eq.
Qed.

(** Storing the same value, enumerated in another order, gives the same map
    when the keys of its leaves are pairwise distinct. *)
Lemma store_same (key : string) (m1 m2 : fields) (vars : vars_map) :
  same_fields m1 m2 -> NoDup (leaves key (VMap m1)).*1 ->
  store key m1 vars = store key m2 vars.
Proof.
  intros Hsame Hnd. pose proof (same_fields_isKV m1 m2 Hsame) as Hkv.
  destruct (isKV m1) as [s [|]] eqn:Hkv1.
  - apply isKV_true in Hkv1 as ->. symmetry in Hkv. by apply isKV_true in Hkv as ->.
  - apply map_eq. intros k.
    rewrite !store_structured_lookup by (by rewrite <- ?Hkv, ?Hkv1).
    destruct (decide (k = key)); [done|].
    rewrite (last_write_perm k _ (leaves key (VMap m2))); [done | done |].
    apply same_leaves. by constructor.
Qed.

End Store.

End StoreFacts.

(** ** The fetch: walk, then read *)

Module FetchFacts.

Import GoPath Vault VaultShape FlattenFacts StoreFacts WalkFacts.

Section Fetch.

Variable Logical_List : string -> option Secret * option error.
Variable Logical_Read : string -> option Secret * option error.
Variable json_Marshal : fields -> string.

Abbreviation walkTree := (Vault.walkTree Logical_List).
Abbreviation walk_prefixes := (Vault.walk_prefixes Logical_List).
Abbreviation store := (Vault.store json_Marshal).
Abbreviation read_loop := (Vault.read_loop Logical_Read json_Marshal).
Abbreviation GetValues := (Vault.GetValues Logical_List Logical_Read json_Marshal).
Abbreviation read_step := (VaultShape.read_step Logical_Read json_Marshal).
Abbreviation touches := (VaultShape.touches Logical_Read).
Abbreviation apart := (VaultShape.apart Logical_Read).
Abbreviation entry := (VaultShape.entry Logical_Read json_Marshal).

(** *** One iteration of the read loop *)

Lemma read_loop_error key rest vars tr e :
  (Logical_Read key).2 = Some e ->
  read_loop (key :: rest) vars tr = ((None, Some e), tr ++ [EvRead key]).
Proof.
  intros H. cbn [Vault.read_loop].
  destruct (Logical_Read key) as [[resp|] [e'|]]; simpl in *; by simplify_eq.
Qed.

Lemma read_loop_skip key rest vars tr :
  (Logical_Read key).2 = None -> payload (Logical_Read key) = None ->
  read_loop (key :: rest) vars tr = read_loop rest vars (tr ++ [EvRead key]).
Proof.
  intros He Hp. cbn [Vault.read_loop].
  destruct (Logical_Read key) as [[resp|] [e'|]]; simpl in *; try done.
  by rewrite Hp.
Qed.

Lemma read_loop_store key rest vars tr data :
  payload (Logical_Read key) = Some data ->
  read_loop (key :: rest) vars tr = read_loop rest (store key data vars) (tr ++ [EvRead key]).
Proof.
  intros Hp. cbn [Vault.read_loop].
  destruct (Logical_Read key) as [[resp|] [e'|]]; simpl in *; try done.
  by rewrite Hp.
Qed.

Lemma read_loop_step key rest vars tr :
  (Logical_Read key).2 = None ->
  read_loop (key :: rest) vars tr = read_loop rest (read_step vars key) (tr ++ [EvRead key]).
Proof.
  intros He. unfold VaultShape.read_step. destruct (payload (Logical_Read key)) as [data|] eqn:Hp.
  - by apply read_loop_store.
  - by apply read_loop_skip.
Qed.

(** Without a failing read, the loop folds [read_step] over the order. *)
Lemma read_loop_ok order vars tr :
  Forall (fun q => (Logical_Read q).2 = None) order ->
  read_loop order vars tr = ((Some (foldl read_step vars order), None), tr ++ map EvRead order).
Proof.
  revert vars tr. induction order as [|key rest IH]; intros vars tr Hok.
  - simpl. by rewrite app_nil_r.
  - apply Forall_cons_1 in Hok as [Hk Hrest].
    rewrite read_loop_step by done. rewrite IH by done.
    simpl. by rewrite <- app_assoc.
Qed.

(** The loop stops at the first failing read. *)
Lemma read_loop_abort pre p post vars tr e :
  Forall (fun q => (Logical_Read q).2 = None) pre ->
  (Logical_Read p).2 = Some e ->
  read_loop (pre ++ p :: post) vars tr
  = ((None, Some e), tr ++ map EvRead pre ++ [EvRead p]).
Proof.
  revert vars tr. induction pre as [|key pre IH]; intros vars tr Hok He.
  - simpl app. by apply read_loop_error.
  - apply Forall_cons_1 in Hok as [Hk Hpre].
    rewrite <- app_comm_cons, read_loop_step by done. rewrite IH by done.
    simpl. by rewrite <- app_assoc.
Qed.

(** C3. If the read at a discovered path fails, and the reads at the paths
    enumerated before it did not, [GetValues] returns the nil map together
    with that error, and the last remote call it made is the failing read:
    none of the paths enumerated after it is read. *)
Theorem first_read_error_aborts (fuel : nat) (range_order : gset string -> list string)
    (keys : list string) (st : walk_state) (pre post : list string) (p : string) (e : error) :
  walk_prefixes fuel keys init_state = Some st ->
  range_order (branches st) = pre ++ p :: post ->
  Forall (fun q => (Logical_Read q).2 = None) pre ->
  (Logical_Read p).2 = Some e ->
  GetValues fuel range_order keys
  = Some ((None, Some e), trace st ++ map EvRead pre ++ [EvRead p]).
Proof.
  intros Hwalk Horder Hpre Hp. unfold Vault.GetValues.
  rewrite Hwalk, Horder. by rewrite (read_loop_abort pre p post ∅ (trace st) e).
Qed.


(** *** The order of the reads *)

Lemma read_step_outside vars key k :
  k ∉ touches key -> read_step vars key !! k = vars !! k.
Proof.
  unfold VaultShape.touches, VaultShape.read_step. destruct (payload (Logical_Read key)); [|done].
  apply store_outside.
Qed.

Lemma read_step_inside v1 v2 key k :
  k ∈ touches key -> read_step v1 key !! k = read_step v2 key !! k.
Proof.
  unfold VaultShape.touches, VaultShape.read_step. destruct (payload (Logical_Read key)).
  - apply store_inside.
  - by intros ?%elem_of_nil.
Qed.

(** Iterations that touch no common key commute. *)
Lemma read_step_commute vars p q :
  touches p ## touches q ->
  read_step (read_step vars p) q = read_step (read_step vars q) p.
Proof.
  intros Hdisj. apply map_eq. intros k.
  destruct (decide (k ∈ touches p)) as [Hp|Hp], (decide (k ∈ touches q)) as [Hq|Hq].
  - by destruct (Hdisj k).
  - rewrite (read_step_outside _ q k Hq). by apply read_step_inside.
  - rewrite (read_step_outside _ p k Hp). by apply read_step_inside.
  - by rewrite !read_step_outside.
Qed.

Lemma foldl_read_step_perm order1 order2 :
  order1 ≡ₚ order2 -> apart order1 ->
  forall vars, foldl read_step vars order1 = foldl read_step vars order2.
Proof.
  induction 1 as [|x l1 l2 Hperm IH|x y l|l1 l2 l3 H12 IH12 H23 IH23]; intros Hapart vars.
  - done.
  - simpl. apply IH. intros p q Hp Hq. apply Hapart; by right.
  - simpl. destruct (decide (x = y)) as [->|Hne]; [done|].
    f_equal. apply read_step_commute. apply Hapart; [by left | by right; left | done].
  - rewrite IH12 by done. apply IH23.
    intros p q Hp Hq. apply Hapart; by rewrite H12.
Qed.

Lemma foldl_read_step_outside order vars k :
  Forall (fun q => k ∉ touches q) order ->
  foldl read_step vars order !! k = vars !! k.
Proof.
  revert vars. induction order as [|q order IH]; intros vars Hout; [done|].
  apply Forall_cons_1 in Hout as [Hq Hout]. simpl.
  rewrite IH by done. by apply read_step_outside.
Qed.

(** The last path of an order that touches a key, if any does. *)
Lemma last_toucher (order : list string) (k : string) :
  Forall (fun q => k ∉ touches q) order
  \/ exists pre q post, order = pre ++ q :: post /\ k ∈ touches q
       /\ Forall (fun q' => k ∉ touches q') post.
Proof.
  induction order as [|x l IH]; [by left|].
  destruct IH as [Hnone|(pre & q & post & -> & Hq & Hpost)].
  - destruct (decide (k ∈ touches x)) as [Hx|Hx].
    + right. by exists [], x, l.
    + left. by constructor.
  - right. by exists (x :: pre), q, post.
Qed.

(** The entry at a key is the one its last toucher leaves. *)
Lemma foldl_read_step_last pre q post vars k :
  k ∈ touches q -> Forall (fun q' => k ∉ touches q') post ->
  foldl read_step vars (pre ++ q :: post) !! k = entry q k.
Proof.
  intros Hq Hpost. rewrite foldl_app. simpl. rewrite foldl_read_step_outside by done.
  unfold VaultShape.entry. by apply read_step_inside.
Qed.

(** C1 (amended). [isKV] accepts the map [{"value": s}] read at a discovered
    path [p], and the iteration for [p] sets [vars[p] = s] and changes
    nothing else. In a fetch without a failing read the returned map holds,
    at [p], the entry of the last path that touches the key [p] in the
    order of the enumeration: it is [s] when every path enumerated after [p]
    that touches the key [p] (a structured value with a leaf keyed [p])
    leaves [s] there, in particular when none does. Every other map (more
    than one field, a single field of another name, a single field that is
    not a string) is rejected by [isKV] and goes through [flatten], after
    which the entry at its path is deleted. *)
Theorem scalar_secret_stored (fuel : nat) (range_order : gset string -> list string)
    (keys : list string) (st : walk_state) (p s : string) :
  walk_prefixes fuel keys init_state = Some st ->
  range_order (branches st) ≡ₚ elements (branches st) ->
  p ∈ branches st ->
  (forall q, q ∈ branches st -> (Logical_Read q).2 = None) ->
  payload (Logical_Read p) = Some [("value", VString s)] ->
  isKV [("value", VString s)] = (s, true)
  /\ (forall vars, read_step vars p = <[p := s]> vars)
  /\ (exists out pre post,
        range_order (branches st) = pre ++ p :: post
        /\ GetValues fuel range_order keys
           = Some ((Some out, None), trace st ++ map EvRead (range_order (branches st)))
        /\ ((forall q, q ∈ post -> p ∈ touches q -> entry q p = Some s) ->
            out !! p = Some s)
        /\ (forall mid q post', post = mid ++ q :: post' -> p ∈ touches q ->
              Forall (fun q' => p ∉ touches q') post' -> out !! p = entry q p))
  /\ (forall data key vars, (forall t, data <> [("value", VString t)]) ->
        isKV data = ("", false)
        /\ store key data vars
           = delete key (flatten key (VMap data) (<[key := json_Marshal data]> vars))).
Proof.
  intros Hwalk Hperm Hp Hok Hdata.
  assert (forall vars, read_step vars p = <[p := s]> vars) as Hstep.
  { intros vars. unfold VaultShape.read_step. by rewrite Hdata. }
  split_and!; [done | done | |].
  - assert (p ∈ range_order (branches st)) as Hin
      by (rewrite Hperm; by apply elem_of_elements).
    apply list_elem_of_split in Hin as (pre & post & Horder).
    exists (foldl read_step ∅ (range_order (branches st))), pre, post.
    split_and!; [done | | |].
    + unfold Vault.GetValues. rewrite Hwalk. f_equal. apply read_loop_ok.
      apply Forall_forall. intros q Hq. apply Hok.
      rewrite Hperm in Hq. by apply elem_of_elements in Hq.
    + intros Hsame. rewrite Horder.
      destruct (last_toucher post p) as [Hnone|(mid & q & post' & -> & Hq & Hpost')].
      * rewrite foldl_app. simpl. rewrite foldl_read_step_outside by done.
        rewrite Hstep. apply lookup_insert_eq.
      * replace (pre ++ p :: mid ++ q :: post') with ((pre ++ p :: mid) ++ q :: post')
          by (by rewrite <- app_assoc).
        rewrite foldl_read_step_last by done.
        apply Hsame; [|done]. apply elem_of_app. right. by left.
    + intros mid q post' -> Hq Hpost'. rewrite Horder.
      replace (pre ++ p :: mid ++ q :: post') with ((pre ++ p :: mid) ++ q :: post')
        by (by rewrite <- app_assoc).
      by rewrite foldl_read_step_last.
  - intros data key vars Hne. apply isKV_false in Hne. split; [done|].
    rewrite store_structured by (by rewrite Hne). by rewrite flatten_writes.
Qed.

End Fetch.

(** *** Two fetches from the same store *)

Section TwoFetches.

Variable Logical_List : string -> option Secret * option error.
Variable Read1 Read2 : string -> option Secret * option error.
Variable json_Marshal : fields -> string.

Lemma read_step_same (vars : vars_map) (p : string) :
  same_response (Read1 p) (Read2 p) ->
  (forall data, payload (Read1 p) = Some data -> NoDup (leaves p (VMap data)).*1) ->
  read_step Read1 json_Marshal vars p = read_step Read2 json_Marshal vars p.
Proof.
  intros [_ Hsame] Hnd. unfold read_step.
  destruct Hsame as [d1 d2 Hd|]; [|done].
  apply store_same; [done | by apply Hnd].
Qed.

Lemma foldl_read_step_same (order : list string) (vars : vars_map) :
  Forall (fun p => same_response (Read1 p) (Read2 p)) order ->
  Forall (fun p => forall data, payload (Read1 p) = Some data ->
                     NoDup (leaves p (VMap data)).*1) order ->
  foldl (read_step Read1 json_Marshal) vars order
  = foldl (read_step Read2 json_Marshal) vars order.
Proof.
  revert vars. induction order as [|p order IH]; intros vars Hs Hn; [done|].
  apply Forall_cons_1 in Hs as [Hp Hs]. apply Forall_cons_1 in Hn as [Hnp Hn].
  simpl. rewrite (read_step_same vars p Hp Hnp). by apply IH.
Qed.

(** Reading the same data in another order of the fields touches the same
    keys. *)
Lemma touches_same (p : string) :
  same_response (Read1 p) (Read2 p) ->
  forall k, k ∈ touches Read1 p <-> k ∈ touches Read2 p.
Proof.
  intros [_ Hsame] k. unfold touches.
  destruct Hsame as [d1 d2 Hd|]; [|done].
  unfold touched. rewrite (same_fields_isKV d1 d2 Hd).
  destruct (isKV d2).2; [done|].
  assert (leaves p (VMap d1) ≡ₚ leaves p (VMap d2)) as Hperm
    by (apply same_leaves; by constructor).
  by rewrite Hperm.
Qed.

(** Paths that touch pairwise disjoint keys, each with leaves of pairwise
    distinct keys, agree. *)
Lemma apart_agree (B : gset string) :
  (forall p, p ∈ B -> same_response (Read1 p) (Read2 p)) ->
  (forall p q, p ∈ B -> q ∈ B -> p <> q -> touches Read1 p ## touches Read1 q) ->
  (forall p data, p ∈ B -> payload (Read1 p) = Some data ->
     NoDup (leaves p (VMap data)).*1) ->
  agree Read1 Read2 json_Marshal B.
Proof.
  intros Hsame Hapart Hnd p q k Hp Hq Hkp Hkq.
  destruct (decide (p = q)) as [->|Hne].
  - unfold entry. rewrite (read_step_same ∅ q); [done | by apply Hsame |].
    intros data. by apply Hnd.
  - by destruct (Hapart p q Hp Hq Hne k).
Qed.

(** C10 (amended). Two fetches from the same store, without a failing read,
    each enumerating the discovered paths once in an order of its own (and
    the fields of the values read in an order of its own). In each fetch
    the entry at an output key is the one left by the last path, in the
    order of that fetch, that touches the key, and a key that no path
    touches has no entry. The two fetches return the same map when any two
    discovered paths that touch the same key leave the same entry there; so
    they do, in particular, when no two distinct discovered paths touch the
    same key and the leaves of each value have pairwise distinct keys. They
    return different maps when the paths they enumerate last touch a common
    key and leave different entries there. *)
Theorem fetch_independent_of_range_order (fuel : nat)
    (range1 range2 : gset string -> list string) (keys : list string) (st : walk_state) :
  walk_prefixes Logical_List fuel keys init_state = Some st ->
  range1 (branches st) ≡ₚ elements (branches st) ->
  range2 (branches st) ≡ₚ elements (branches st) ->
  (forall p, p ∈ branches st -> same_response (Read1 p) (Read2 p)) ->
  (forall p, p ∈ branches st -> (Read1 p).2 = None) ->
  exists out1 out2,
    fst <$> GetValues Logical_List Read1 json_Marshal fuel range1 keys
    = Some (Some out1, None)
    /\ fst <$> GetValues Logical_List Read2 json_Marshal fuel range2 keys
       = Some (Some out2, None)
    /\ (agree Read1 Read2 json_Marshal (branches st) -> out1 = out2)
    /\ ((forall p q, p ∈ branches st -> q ∈ branches st -> p <> q ->
           touches Read1 p ## touches Read1 q) ->
        (forall p data, p ∈ branches st -> payload (Read1 p) = Some data ->
           NoDup (leaves p (VMap data)).*1) ->
        out1 = out2)
    /\ (forall k, (forall pre q post, range1 (branches st) = pre ++ q :: post ->
                     k ∈ touches Read1 q ->
                     Forall (fun q' => k ∉ touches Read1 q') post ->
                     out1 !! k = entry Read1 json_Marshal q k)
                  /\ (Forall (fun q => k ∉ touches Read1 q) (range1 (branches st)) ->
                      out1 !! k = None))
    /\ (forall k, (forall pre q post, range2 (branches st) = pre ++ q :: post ->
                     k ∈ touches Read2 q ->
                     Forall (fun q' => k ∉ touches Read2 q') post ->
                     out2 !! k = entry Read2 json_Marshal q k)
                  /\ (Forall (fun q => k ∉ touches Read2 q) (range2 (branches st)) ->
                      out2 !! k = None))
    /\ (forall k p q l1 l2,
          range1 (branches st) = l1 ++ [p] -> range2 (branches st) = l2 ++ [q] ->
          k ∈ touches Read1 p -> k ∈ touches Read1 q ->
          entry Read1 json_Marshal p k <> entry Read2 json_Marshal q k ->
          out1 <> out2).
Proof.
  intros Hwalk H1 H2 Hsame Hok. unfold GetValues. rewrite Hwalk.
  assert (forall order, order ≡ₚ elements (branches st) ->
            forall p, p ∈ order -> p ∈ branches st) as Hin.
  { intros order Ho p Hp. rewrite Ho in Hp. by apply elem_of_elements in Hp. }
  assert (forall order, order ≡ₚ elements (branches st) ->
            forall p, p ∈ branches st -> p ∈ order) as Hni.
  { intros order Ho p Hp. rewrite Ho. by apply elem_of_elements. }
  rewrite !read_loop_ok;
    try (apply Forall_forall; intros p Hp;
         first [ apply Hok; apply (Hin _ H1 p Hp)
               | destruct (Hsame p (Hin _ H2 p Hp)) as [<- _]; apply Hok;
                 apply (Hin _ H2 p Hp) ]).
  simpl.
  set (out1 := foldl (read_step Read1 json_Marshal) ∅ (range1 (branches st))).
  set (out2 := foldl (read_step Read2 json_Marshal) ∅ (range2 (branches st))).
  assert (forall k, (forall pre q post, range1 (branches st) = pre ++ q :: post ->
                       k ∈ touches Read1 q ->
                       Forall (fun q' => k ∉ touches Read1 q') post ->
                       out1 !! k = entry Read1 json_Marshal q k)
                    /\ (Forall (fun q => k ∉ touches Read1 q) (range1 (branches st)) ->
                        out1 !! k = None)) as Hlast1.
  { intros k. unfold out1. split.
    - intros pre q post -> Hq Hpost. by apply foldl_read_step_last.
    - intros Hnone. by rewrite foldl_read_step_outside. }
  assert (forall k, (forall pre q post, range2 (branches st) = pre ++ q :: post ->
                       k ∈ touches Read2 q ->
                       Forall (fun q' => k ∉ touches Read2 q') post ->
                       out2 !! k = entry Read2 json_Marshal q k)
                    /\ (Forall (fun q => k ∉ touches Read2 q) (range2 (branches st)) ->
                        out2 !! k = None)) as Hlast2.
  { intros k. unfold out2. split.
    - intros pre q post -> Hq Hpost. by apply foldl_read_step_last.
    - intros Hnone. by rewrite foldl_read_step_outside. }
  assert (agree Read1 Read2 json_Marshal (branches st) -> out1 = out2) as Hagree.
  { intros Hag. apply map_eq. intros k.
    destruct (last_toucher Read1 (range1 (branches st)) k)
      as [Hn1|(pre1 & p & post1 & Ho1 & Hp & Hpost1)],
       (last_toucher Read2 (range2 (branches st)) k)
      as [Hn2|(pre2 & q & post2 & Ho2 & Hq & Hpost2)].
    - by rewrite (proj2 (Hlast1 k) Hn1), (proj2 (Hlast2 k) Hn2).
    - assert (q ∈ branches st) as Hqb
        by (apply (Hin _ H2); rewrite Ho2; set_solver).
      rewrite Forall_forall in Hn1. destruct (Hn1 q (Hni _ H1 q Hqb)).
      by apply (touches_same q (Hsame q Hqb)).
    - assert (p ∈ branches st) as Hpb
        by (apply (Hin _ H1); rewrite Ho1; set_solver).
      rewrite Forall_forall in Hn2. destruct (Hn2 p (Hni _ H2 p Hpb)).
      by apply (touches_same p (Hsame p Hpb)).
    - assert (p ∈ branches st) as Hpb
        by (apply (Hin _ H1); rewrite Ho1; set_solver).
      assert (q ∈ branches st) as Hqb
        by (apply (Hin _ H2); rewrite Ho2; set_solver).
      rewrite (proj1 (Hlast1 k) _ _ _ Ho1 Hp Hpost1).
      rewrite (proj1 (Hlast2 k) _ _ _ Ho2 Hq Hpost2).
      apply Hag; [done | done | done |]. by apply (touches_same q (Hsame q Hqb)). }
  exists out1, out2. split_and!; [done | done | done | | done | done |].
  - intros Hapart Hnd. apply Hagree. by apply apart_agree.
  - intros k p q l1 l2 Ho1 Ho2 Hp Hq Hne Heq.
    assert (q ∈ branches st) as Hqb
      by (apply (Hin _ H2); rewrite Ho2; set_solver).
    apply Hne.
    rewrite <- (proj1 (Hlast1 k) _ _ _ Ho1 Hp (Forall_nil_2 _)).
    rewrite <- (proj1 (Hlast2 k) _ _ _ Ho2 (proj1 (touches_same q (Hsame q Hqb) k) Hq)
                  (Forall_nil_2 _)).
    by rewrite Heq.
Qed.

End TwoFetches.

End FetchFacts.

(** ** Concrete runs *)

Module Runs.

Import GoPath Vault VaultShape PathShape Demo.
Import JoinFacts CleanFacts WalkFacts StoreFacts FetchFacts.

Lemma demo_walk : walk_prefixes demo_List 5 ["secret/"] init_state = Some demo_state.
Proof. vm_compute. reflexivity. Qed.

Lemma demo_walk_ok : walk_prefixes ok_List 5 ["secret/"] init_state = Some demo_state.
Proof. vm_compute. reflexivity. Qed.

Lemma demo_order : range_up (branches demo_state) = ["secret/app"; "secret/db"; "secret"; "."].
Proof. vm_compute. reflexivity. Qed.

Lemma demo_order_down :
  range_down (branches demo_state) = ["."; "secret"; "secret/db"; "secret/app"].
Proof. vm_compute. reflexivity. Qed.

Lemma demo_paths_cases (p : string) :
  p ∈ branches demo_state ->
  p = "secret" \/ p = "." \/ p = "secret/app" \/ p = "secret/db".
Proof. simpl. unfold demo_paths. set_solver. Qed.

(** *** C1 *)

(** [secret] is enumerated after [secret/db] and its field [db] is written
    under the key [secret/db], with the string that the scalar holds. *)
Lemma scalar_secret_stored_witness :
  isKV [("value", VString "shadow")] = ("shadow", true)
  /\ (forall vars, read_step demo_Read_agreeing demo_Marshal vars "secret/db"
                   = <["secret/db" := "shadow"]> vars)
  /\ "secret/db" ∈ touches demo_Read_agreeing "secret"
  /\ exists out tr,
       GetValues demo_List demo_Read_agreeing demo_Marshal 5 range_up ["secret/"]
       = Some ((Some out, None), tr)
       /\ out !! "secret/db" = Some "shadow".
Proof.
  assert ("secret/db" ∈ touches demo_Read_agreeing "secret") as Htouched
    by (vm_compute; set_solver).
  destruct (scalar_secret_stored demo_List demo_Read_agreeing demo_Marshal 5 range_up
              ["secret/"] demo_state "secret/db" "shadow")
    as (Hkv & Hstep & (out & pre & post & Horder & Hget & Hsame & _) & _).
  - exact demo_walk.
  - reflexivity.
  - simpl. unfold demo_paths. set_solver.
  - intros q Hq.
    destruct (demo_paths_cases q Hq) as [-> | [-> | [-> | ->]]]; reflexivity.
  - reflexivity.
  - split_and!; [exact Hkv | exact Hstep | exact Htouched |].
    exists out, (trace demo_state ++ map EvRead (range_up (branches demo_state))).
    split; [exact Hget|]. apply Hsame. intros q Hq Htouch.
    rewrite demo_order in Horder. clear Hget Hsame Hstep Hkv.
    destruct pre as [|? [|? [|? [|? [|? ?]]]]]; simpl in Horder; simplify_eq.
    apply elem_of_cons in Hq as [->|Hq]; [by vm_compute|].
    apply list_elem_of_singleton in Hq as ->. vm_compute in Htouch.
    by apply elem_of_nil in Htouch.
Defined.

(** The claim as stated fails when another discovered path writes the key:
    [secret/db] is discovered and its read returns [{"value": "hunter2"}],
    no call fails, and the fetch returns [shadow] at [secret/db], the field
    [db] of the value at [secret], which is read later. *)
Lemma scalar_secret_overwritten :
  walk_prefixes ok_List 5 ["secret/"] init_state = Some demo_state
  /\ "secret/db" ∈ branches demo_state
  /\ (forall p, (ok_List p).2 = None)
  /\ (forall p, (demo_Read p).2 = None)
  /\ payload (demo_Read "secret/db") = Some [("value", VString "hunter2")]
  /\ exists out tr,
       GetValues ok_List demo_Read demo_Marshal 5 range_up ["secret/"]
       = Some ((Some out, None), tr)
       /\ out !! "secret/db" = Some "shadow".
Proof.
  split_and!.
  - exact demo_walk_ok.
  - simpl. unfold demo_paths. set_solver.
  - intros p. unfold ok_List, demo_List, keys_response. by repeat case_match.
  - intros p. unfold demo_Read, data_response. by repeat case_match.
  - reflexivity.
  - unfold GetValues. rewrite demo_walk_ok, demo_order.
    rewrite read_loop_ok.
    + eexists _, _. split; [reflexivity|]. by vm_compute.
    + repeat (constructor; [reflexivity|]). constructor.
Qed.

(** *** C2 *)

(** The value has two leaves keyed [p/a] beside three leaves with keys of
    their own. *)
Lemma structured_secret_flattened_witness :
  let out := store demo_Marshal "p" mixed_fields ∅ in
  out !! "p" = None
  /\ (forall k, k <> "p" -> k ∉ (leaves "p" (VMap mixed_fields)).*1 ->
        out !! k = (∅ : vars_map) !! k)
  /\ (forall k s l1 l2, k <> "p" ->
        leaves "p" (VMap mixed_fields) = l1 ++ (k, s) :: l2 -> k ∉ l2.*1 ->
        out !! k = Some s)
  /\ (forall k, k <> "p" -> k ∈ (leaves "p" (VMap mixed_fields)).*1 ->
        exists s, (k, s) ∈ leaves "p" (VMap mixed_fields) /\ out !! k = Some s)
  /\ (forall k s, k <> "p" -> (k, s) ∈ leaves "p" (VMap mixed_fields) ->
        (forall s', (k, s') ∈ leaves "p" (VMap mixed_fields) -> s' = s) ->
        out !! k = Some s).
Proof.
  apply (structured_secret_flattened demo_Marshal "p" mixed_fields ∅).
  reflexivity.
Defined.

(** The claim as stated fails when two field names join to the same key:
    the value has two string leaves, both keyed [p/a]; in either order of
    the fields the output holds a single entry, and one of the leaves is
    not in it. *)
Lemma colliding_leaves_one_entry :
  (isKV colliding_fields).2 = false
  /\ leaves "p" (VMap colliding_fields) = [("p/a", "1"); ("p/a", "2")]
  /\ store demo_Marshal "p" colliding_fields ∅ = {["p/a" := "2"]}
  /\ store demo_Marshal "p" (reverse colliding_fields) ∅ = {["p/a" := "1"]}.
Proof. split_and!; by vm_compute. Qed.

(** *** C3 *)

Lemma first_read_error_aborts_witness :
  GetValues demo_List demo_Read_failing demo_Marshal 5 range_up ["secret/"]
  = Some ((None, Some "connection reset"),
          trace demo_state ++ map EvRead ["secret/app"] ++ [EvRead "secret/db"]).
Proof.
  apply (first_read_error_aborts demo_List demo_Read_failing demo_Marshal 5 range_up
           ["secret/"] demo_state ["secret/app"] ["secret"; "."] "secret/db"
           "connection reset").
  - vm_compute. reflexivity.
  - vm_compute. reflexivity.
  - repeat constructor.
  - reflexivity.
Defined.

(** *** C4 *)

Lemma demo_paths_closed : closed_under_listing demo_List demo_paths.
Proof.
  intros p c Hp Hc. unfold demo_paths in Hp.
  apply elem_of_union in Hp as [Hp|Hp]; [apply elem_of_union in Hp as [Hp|Hp];
    [apply elem_of_union in Hp as [Hp|Hp]|]|];
    apply elem_of_singleton in Hp; subst p; vm_compute in Hc;
    repeat (apply elem_of_cons in Hc as [Hc|Hc]; [simplify_eq|]);
    try (by apply elem_of_nil in Hc); by vm_compute.
Qed.



(** *** C5 *)

Lemma visited_before_listed_once_witness :
  visit_before_list (trace demo_state)
  /\ listed_once (trace demo_state)
  /\ (forall p, EvList p ∈ trace demo_state -> p ∈ branches demo_state).
Proof.
  apply (visited_before_listed_once demo_List 5 ["secret/"] demo_state).
  vm_compute. reflexivity.
Defined.

(** *** C6 *)

(** The demo tree has a cycle ([secret] lists its parent [.], which lists
    [secret]); the walk from [secret/] returns. *)
Lemma discovery_terminates_witness :
  (exists st, branches st ⊆ demo_paths
     /\ forall fuel, size demo_paths < fuel ->
          walk_prefixes demo_List fuel ["secret/"] init_state = Some st)
  /\ (forall fuel key st, strip_slash key ∈ branches st ->
        walkTree demo_List (S fuel) key st = Some (st, None)).
Proof.
  apply (discovery_terminates demo_List demo_paths ["secret/"] demo_paths_closed).
  constructor; [by vm_compute | constructor].
Defined.

(** *** C7 *)

Lemma strip_slash_same_discovery_witness :
  strip_slash ("secret/foo" +:+ "/") = "secret/foo"
  /\ strip_slash "/" = "/"
  /\ (strip_slash "secret/foo" = "secret/foo" ->
      walkTree demo_List 5 ("secret/foo" +:+ "/") init_state
      = walkTree demo_List 5 "secret/foo" init_state
      /\ walk_prefixes demo_List 5 (("secret/foo" +:+ "/") :: ["secret"]) init_state
         = walk_prefixes demo_List 5 ("secret/foo" :: ["secret"]) init_state).
Proof.
  apply (strip_slash_same_discovery demo_List 5 "secret/foo" ["secret"] init_state).
  discriminate.
Defined.

(** *** C8 *)

(** The listing of [secret] starts with the child [app/] and a number. *)
Lemma child_path_joined_once_witness :
  walk_children visit_only "secret" [VString "app/"; VNumber "7"] init_state
  = Some (visit "secret/app" init_state, None)
  /\ Join ["secret"; "/"; "app/"] = joined_once "secret" "app/"
  /\ joined_once "secret" "app/" = "secret/app"
  /\ Join ["/"; "/"; ".."] = "/"
  /\ Join ["secret"; "/"; ".."] = ".".
Proof.
  destruct (child_path_joined_once visit_only "secret" "app/" [VNumber "7"] init_state)
    as (Hstep & Hplain & _ & _).
  destruct (child_path_joined_once visit_only "/" ".." [] init_state)
    as (_ & _ & _ & Hroot).
  destruct (child_path_joined_once visit_only "secret" ".." [] init_state)
    as (_ & _ & _ & Hrel).
  split_and!.
  - rewrite Hstep. by vm_compute.
  - rewrite <- (Hplain eq_refl). by vm_compute.
  - by vm_compute.
  - by apply Hroot.
  - by apply Hrel.
Defined.

(** The claim as stated fails for the child name [..]: the loop recurses
    into [.], not into the two paths joined by one separator. *)
Lemma parent_child_name_resolved :
  walk_children visit_only "secret" [VString ".."] init_state
  = Some (visit "." init_state, None)
  /\ joined_once "secret" ".." = "secret/.."
  /\ segments_of "." <> segments_of "secret" ++ segments_of "..".
Proof. split_and!; [by vm_compute | by vm_compute | discriminate]. Qed.

(** *** C9 *)

Lemma empty_field_name_dropped_witness :
  Join ["secret/app"; "/"; ""] = "secret/app"
  /\ store demo_Marshal "secret/app" ([("k", VString "v")] ++ ("", VString "x") :: []) ∅
     = delete "secret/app" (writes (leaves "secret/app" (VMap ([("k", VString "v")] ++ []))) ∅)
  /\ store demo_Marshal "secret/app" ([("k", VString "v")] ++ ("", VString "x") :: []) ∅
     !! "secret/app" = None.
Proof.
  apply (proj2 (empty_field_name_dropped demo_Marshal "secret/app" "x"
                  [("k", VString "v")] [] ∅)).
  reflexivity.
Defined.

(** The claim as stated fails at a prefix that is not in cleaned form: the
    empty name joined onto [secret//app] gives [secret/app], so the string
    is written there and stays in the output of the fetch. *)
Lemma empty_field_name_kept :
  Join ["secret//app"; "/"; ""] = "secret/app"
  /\ store demo_Marshal "secret//app" unnamed_field ∅ = {["secret/app" := "x"]}
  /\ fst <$> GetValues flat_List doubled_Read demo_Marshal 1 range_up ["secret//app"]
     = Some (Some {["secret/app" := "x"]}, None).
Proof. split_and!; by vm_compute. Qed.

(** *** C10 *)

Lemma demo_agree :
  agree demo_Read_agreeing demo_Read_agreeing_shuffled demo_Marshal (branches demo_state).
Proof.
  intros p q k Hp Hq Hkp Hkq.
  destruct (demo_paths_cases p Hp) as [-> | [-> | [-> | ->]]];
    vm_compute in Hkp;
    repeat (apply elem_of_cons in Hkp as [->|Hkp]);
    try (by apply elem_of_nil in Hkp);
    destruct (demo_paths_cases q Hq) as [-> | [-> | [-> | ->]]];
    vm_compute in Hkq;
    repeat (apply elem_of_cons in Hkq as [Hkq|Hkq]; [try done|]);
    try (by apply elem_of_nil in Hkq);
    by vm_compute.
Qed.

(** [secret] and [secret/db] both write the key [secret/db], with the same
    string; the second fetch enumerates the paths in the reverse order and
    the fields of the value at [secret/app] in another order. *)
Lemma fetch_independent_of_range_order_witness :
  "secret/db" ∈ touches demo_Read_agreeing "secret"
  /\ "secret/db" ∈ touches demo_Read_agreeing "secret/db"
  /\ exists out,
       fst <$> GetValues demo_List demo_Read_agreeing demo_Marshal 5 range_up ["secret/"]
       = Some (Some out, None)
       /\ fst <$> GetValues demo_List demo_Read_agreeing_shuffled demo_Marshal 5 range_down
                   ["secret/"]
          = Some (Some out, None).
Proof.
  assert ("secret/db" ∈ touches demo_Read_agreeing "secret") as Htouched
    by (vm_compute; set_solver).
  assert ("secret/db" ∈ touches demo_Read_agreeing "secret/db") as Htouched'
    by (vm_compute; set_solver).
  destruct (fetch_independent_of_range_order demo_List demo_Read_agreeing
              demo_Read_agreeing_shuffled demo_Marshal 5 range_up range_down
              ["secret/"] demo_state)
    as (out1 & out2 & Hget1 & Hget2 & Hagree & _).
  - exact demo_walk.
  - reflexivity.
  - unfold range_down. by rewrite reverse_Permutation.
  - intros p Hp.
    destruct (demo_paths_cases p Hp) as [-> | [-> | [-> | ->]]];
      (split; [reflexivity|]); vm_compute; repeat constructor.
  - intros p Hp.
    destruct (demo_paths_cases p Hp) as [-> | [-> | [-> | ->]]]; reflexivity.
  - split_and!; [exact Htouched | exact Htouched' |].
    exists out1. split; [exact Hget1|]. rewrite (Hagree demo_agree). exact Hget2.
Defined.

(** The claim as stated fails when two discovered paths leave different
    entries at the same key: no call to the store fails, [secret] holds a
    field [db] and [secret/db] holds a scalar, and the entry at [secret/db]
    is the one of the path that is read last. *)
Lemma fetch_depends_on_range_order :
  (forall p, (ok_List p).2 = None)
  /\ (forall p, (demo_Read p).2 = None)
  /\ range_up (branches demo_state) ≡ₚ elements (branches demo_state)
  /\ range_down (branches demo_state) ≡ₚ elements (branches demo_state)
  /\ exists out1 out2,
       fst <$> GetValues ok_List demo_Read demo_Marshal 5 range_up ["secret/"]
       = Some (Some out1, None)
       /\ fst <$> GetValues ok_List demo_Read demo_Marshal 5 range_down ["secret/"]
          = Some (Some out2, None)
       /\ out1 !! "secret/db" = Some "shadow"
       /\ out2 !! "secret/db" = Some "hunter2".
Proof.
  split_and!.
  - intros p. unfold ok_List, demo_List, keys_response. by repeat case_match.
  - intros p. unfold demo_Read, data_response. by repeat case_match.
  - reflexivity.
  - unfold range_down. by rewrite reverse_Permutation.
  - unfold GetValues. rewrite demo_walk_ok, demo_order, demo_order_down.
    rewrite !read_loop_ok by (repeat (constructor; [reflexivity|]); constructor).
    eexists _, _. split_and!; [reflexivity | reflexivity | by vm_compute | by vm_compute].
Qed.

End Runs.

(** * The discovered set *)

Module DiscoveryFacts.

Import GoPath Vault VaultShape DiscoveryShape WalkFacts.

Section Discovery.

Variable Logical_List : string -> option Secret * option error.

Abbreviation walkTree := (Vault.walkTree Logical_List).
Abbreviation walk_prefixes := (Vault.walk_prefixes Logical_List).
Abbreviation new_closed := (new_paths_closed Logical_List).

(** *** What a walk cannot reach *)

Lemma walk_children_within (Q : string -> Prop) walk key keyList st st' r :
  (forall k s s' r', walk k s = Some (s', r') -> Q (strip_slash k) ->
     (forall p, p ∈ branches s -> Q p) -> forall p, p ∈ branches s' -> Q p) ->
  (forall c, VString c ∈ keyList -> Q (strip_slash (Join [key; "/"; c]))) ->
  walk_children walk key keyList st = Some (st', r) ->
  (forall p, p ∈ branches st -> Q p) -> forall p, p ∈ branches st' -> Q p.
Proof.
  intros Hwalk. revert st. induction keyList as [|v l IH]; intros st Hin; simpl.
  - by intros [= <- _].
  - assert (forall c, VString c ∈ l -> Q (strip_slash (Join [key; "/"; c]))) as Hl
      by (intros c Hc; apply Hin; by right).
    destruct v as [| | |s| |]; try by apply IH.
    destruct (walk _ st) as [[st1 r1]|] eqn:Hw; [|done].
    intros Hrest HQ. apply (IH st1 Hl Hrest).
    apply (Hwalk _ _ _ _ Hw); [apply Hin; by left | done].
Qed.

Lemma walkTree_within (Q : string -> Prop) :
  kept_by_listing Logical_List Q ->
  forall fuel key st st' r, walkTree fuel key st = Some (st', r) ->
    Q (strip_slash key) -> (forall p, p ∈ branches st -> Q p) ->
    forall p, p ∈ branches st' -> Q p.
Proof.
  intros Hkept. induction fuel as [|fuel IH]; intros key st st' r; [done|].
  rewrite walkTree_unfold. cbv zeta.
  destruct (decide (strip_slash key ∈ branches st)) as [Hin|Hnew].
  { by intros [= <- _]. }
  set (k := strip_slash key) in *.
  assert (forall p, Q k -> (forall q, q ∈ branches st -> Q q) ->
            p ∈ branches (record (EvList k) (visit k st)) -> Q p) as Hstep.
  { intros p Hk HQ Hp. simpl in Hp. apply elem_of_union in Hp as [Hp|Hp]; [|by apply HQ].
    by apply elem_of_singleton in Hp as ->. }
  destruct (Logical_List k).2 as [e|] eqn:Herr.
  - intros [= <- _] Hk HQ p. by apply Hstep.
  - intros Hc Hk HQ. eapply walk_children_within; [apply IH | | apply Hc |].
    + intros c Hl. by apply Hkept.
    + intros p. by apply Hstep.
Qed.

Lemma walk_prefixes_within (Q : string -> Prop) :
  kept_by_listing Logical_List Q ->
  forall fuel keys st st', walk_prefixes fuel keys st = Some st' ->
    Forall (fun k => Q (strip_slash k)) keys -> (forall p, p ∈ branches st -> Q p) ->
    forall p, p ∈ branches st' -> Q p.
Proof.
  intros Hkept fuel keys. induction keys as [|key keys IH]; intros st st'; simpl.
  - by intros [= <-].
  - destruct (walkTree fuel key st) as [[st1 r]|] eqn:Hw; [|done].
    intros Hl [Hk Hkeys]%Forall_cons_1 HQ. apply (IH st1 st' Hl Hkeys).
    by eapply walkTree_within.
Qed.

Lemma discovered_within (Q : string -> Prop) fuel keys st :
  kept_by_listing Logical_List Q ->
  walk_prefixes fuel keys init_state = Some st ->
  Forall (fun k => Q (strip_slash k)) keys ->
  forall p, p ∈ branches st -> Q p.
Proof.
  intros HQ Hrun HkeysQ p Hp.
  eapply (walk_prefixes_within Q HQ); [apply Hrun | done | set_solver | done].
Qed.

(** *** The discovered set *)

(** Discovery computes the least set of paths that holds the stripped
    prefixes and is closed under the listings: it holds every prefix, with
    every path it holds it holds the join of each string child the remote
    lists there, and every path in it has any property that the prefixes
    have and that the listings keep. *)
Theorem discovery_least_closed (fuel : nat) (keys : list string) (st : walk_state) :
  walk_prefixes fuel keys init_state = Some st ->
  Forall (fun k => strip_slash k ∈ branches st) keys
  /\ closed_under_listing Logical_List (branches st)
  /\ (forall Q : string -> Prop, kept_by_listing Logical_List Q ->
        Forall (fun k => Q (strip_slash k)) keys ->
        forall p, p ∈ branches st -> Q p).
Proof.
  intros Hrun. destruct (walk_prefixes_closed Logical_List _ _ _ _ Hrun) as [[_ Hcl] Hkeys].
  split_and!; [done | |].
  - intros p c Hp Hc. apply Hcl; [done | set_solver | done].
  - intros Q HQ HkeysQ. by eapply discovered_within.
Qed.

(** The discovered set depends on the prefixes only as a set and only
    through their stripped form: two runs whose prefixes strip to the same
    paths, in any order and with any repetitions, discover the same set. *)
Theorem discovery_ignores_prefix_order (fuel1 fuel2 : nat) (keys1 keys2 : list string)
    (st1 st2 : walk_state) :
  walk_prefixes fuel1 keys1 init_state = Some st1 ->
  walk_prefixes fuel2 keys2 init_state = Some st2 ->
  (forall k, k ∈ strip_slash <$> keys1 <-> k ∈ strip_slash <$> keys2) ->
  branches st1 = branches st2.
Proof.
  intros H1 H2 Hsame.
  destruct (walk_prefixes_closed Logical_List _ _ _ _ H1) as [_ Hk1].
  destruct (walk_prefixes_closed Logical_List _ _ _ _ H2) as [_ Hk2].
  assert (forall keys keys' (B : gset string),
            (forall k, k ∈ strip_slash <$> keys -> k ∈ strip_slash <$> keys') ->
            Forall (fun k => strip_slash k ∈ B) keys' ->
            Forall (fun k => strip_slash k ∈ B) keys) as Hmove.
  { intros keys keys' B Hsub HB. apply Forall_forall. intros k Hk.
    assert (strip_slash k ∈ strip_slash <$> keys') as Hk'
      by (apply Hsub; by apply list_elem_of_fmap_2).
    apply list_elem_of_fmap in Hk' as (k' & -> & Hk').
    rewrite Forall_forall in HB. by apply HB. }
  apply set_eq. intros p. split; intros Hp.
  - eapply (discovered_within (fun q => q ∈ branches st2)); [| apply H1 | | done].
    + intros q c Hq Hc. destruct (walk_prefixes_closed Logical_List _ _ _ _ H2) as [[_ Hcl] _].
      apply Hcl; [done | set_solver | done].
    + eapply Hmove; [|done]. intros k. apply Hsame.
  - eapply (discovered_within (fun q => q ∈ branches st1)); [| apply H2 | | done].
    + intros q c Hq Hc. destruct (walk_prefixes_closed Logical_List _ _ _ _ H1) as [[_ Hcl] _].
      apply Hcl; [done | set_solver | done].
    + eapply Hmove; [|done]. intros k. apply Hsame.
Qed.

(** Apart from the stripped prefixes themselves, every discovered path is in
    cleaned form and has no trailing separator to strip. *)
Theorem discovered_paths_clean (fuel : nat) (keys : list string) (st : walk_state) (p : string) :
  walk_prefixes fuel keys init_state = Some st ->
  p ∈ branches st ->
  p ∈ strip_slash <$> keys \/ (Clean p = p /\ strip_slash p = p).
Proof.
  intros Hrun Hp.
  eapply (discovered_within
            (fun q => q ∈ strip_slash <$> keys \/ (Clean q = q /\ strip_slash q = q)));
    [| apply Hrun | | done].
  - intros q c _ _. right. rewrite !Join_stripped. split; [|done].
    apply CleanFacts.Join_is_clean.
  - apply Forall_forall. intros k Hk. left. by apply list_elem_of_fmap_2.
Qed.

(** *** One list call for each discovered path *)

Lemma list_calls_app (t1 t2 : list event) :
  list_calls (t1 ++ t2) = list_calls t1 ++ list_calls t2.
Proof. apply omap_app. Qed.

Lemma list_calls_step key st :
  list_calls (trace (record (EvList key) (visit key st)))
  = list_calls (trace st) ++ [key].
Proof. simpl. by rewrite !list_calls_app, app_nil_r. Qed.

(** The remote list calls of a discovery run are, up to their order,
    exactly the discovered paths: each discovered path is listed once,
    whether it has children, is a leaf, or fails to list, and nothing else
    is listed. *)
Theorem one_list_call_per_path (fuel : nat) (keys : list string) (st : walk_state) :
  walk_prefixes fuel keys init_state = Some st ->
  list_calls (trace st) ≡ₚ elements (branches st)
  /\ length (list_calls (trace st)) = size (branches st).
Proof.
  intros Hrun.
  assert (NoDup (list_calls (trace st))
          /\ forall p, p ∈ list_calls (trace st) <-> p ∈ branches st) as [Hnd Hin].
  { eapply (walk_prefixes_preserves Logical_List
              (fun s => NoDup (list_calls (trace s))
                        /\ forall p, p ∈ list_calls (trace s) <-> p ∈ branches s));
      [|apply Hrun|].
    - intros key s [Hnd Hin] Hnew. rewrite list_calls_step. split.
      + apply NoDup_app. split_and!; [done | | apply NoDup_singleton].
        intros p Hp ->%list_elem_of_singleton. by apply Hnew, Hin.
      + intros p. rewrite elem_of_app, list_elem_of_singleton, Hin. simpl. set_solver.
    - split; [constructor|]. intros p. simpl. set_solver. }
  assert (list_calls (trace st) ≡ₚ elements (branches st)) as Hperm.
  { apply NoDup_Permutation; [done | apply NoDup_elements|].
    intros p. by rewrite Hin, elem_of_elements. }
  split; [done|]. by rewrite Hperm.
Qed.

End Discovery.

End DiscoveryFacts.

(** * What a fetch returns *)

Module OutputFacts.

Import GoPath Vault VaultShape DiscoveryShape OutputShape.
Import WalkFacts FlattenFacts StoreFacts FetchFacts.

Lemma has_string_fields (m : fields) :
  has_string (VMap m) = existsb (fun kv => has_string kv.2) m.
Proof. induction m as [|[k v] m IH]; [done|]. simpl in *. by rewrite IH. Qed.

Lemma leaves_nil (v : value) :
  forall key, leaves key v = [] <-> has_string v = false.
Proof.
  induction v as [| | | |l _|m IH] using value_induction; intros key; try done.
  rewrite leaves_VMap, has_string_fields. unfold leaves_fields.
  induction m as [|[k v] m IHm]; [done|].
  apply Forall_cons_1 in IH as [Hv Hm]. cbn [flat_map existsb fst snd] in *.
  rewrite orb_false_iff, <- (IHm Hm), <- (Hv (Join [key; "/"; k])).
  split; [by intros [? ?]%app_eq_nil | by intros [-> ->]].
Qed.

Section Output.

Variable Logical_List : string -> option Secret * option error.
Variable Logical_Read : string -> option Secret * option error.
Variable json_Marshal : fields -> string.

Abbreviation walk_prefixes := (Vault.walk_prefixes Logical_List).
Abbreviation store := (Vault.store json_Marshal).
Abbreviation read_loop := (Vault.read_loop Logical_Read json_Marshal).
Abbreviation GetValues := (Vault.GetValues Logical_List Logical_Read json_Marshal).

(** A value without a string that [flatten] reaches (numbers, booleans,
    [nil], lists, maps of such, the empty map) leaves no entry of its own,
    and the entry that the map held at [key] is gone. *)
Theorem value_without_string_dropped (key : string) (data : fields) (vars : vars_map) :
  has_string (VMap data) = false ->
  store key data vars = delete key vars.
Proof.
  intros Hno.
  assert ((isKV data).2 = false) as Hkv.
  { destruct (isKV data) as [s [|]] eqn:H; [|done].
    apply isKV_true in H as ->. done. }
  rewrite store_structured by done.
  apply (leaves_nil _ key) in Hno. rewrite Hno. simpl.
  apply map_eq. intros k. destruct (decide (k = key)) as [->|Hne].
  - by rewrite !lookup_delete_eq.
  - by rewrite !lookup_delete_ne, lookup_insert_ne.
Qed.

(** *** Where an entry of the output comes from *)

Lemma store_origin (key : string) (data : fields) (vars : vars_map) (k v : string) :
  store key data vars !! k = Some v ->
  vars !! k = Some v
  \/ (isKV data = (v, true) /\ k = key)
  \/ ((isKV data).2 = false /\ (k, v) ∈ leaves key (VMap data) /\ k <> key).
Proof.
  destruct (isKV data) as [s [|]] eqn:Hkv.
  - pose proof Hkv as ->%isKV_true. rewrite store_scalar.
    destruct (decide (k = key)) as [->|Hne].
    + rewrite lookup_insert_eq. intros [= ->]. by right; left.
    + rewrite lookup_insert_ne by done. by left.
  - rewrite store_structured_lookup by (by rewrite Hkv).
    destruct (decide (k = key)) as [|Hne]; [done|].
    destruct (last_write k _) as [s'|] eqn:Hl; simpl.
    + intros [= ->]. right. right. split_and!; [done | by apply last_write_elem | done].
    + by left.
Qed.

Lemma read_loop_origin (order : list string) (vars : vars_map) (tr : list event)
    (out : vars_map) (e : option error) (tr' : list event) (k v : string) :
  read_loop order vars tr = ((Some out, e), tr') ->
  out !! k = Some v ->
  vars !! k = Some v \/ exists p, p ∈ order /\ entry_of Logical_Read k v p.
Proof.
  revert vars tr. induction order as [|key rest IH]; intros vars tr.
  - simpl. intros [= <- _ _]. by left.
  - destruct (Logical_Read key).2 as [err|] eqn:Herr.
    { by rewrite (read_loop_error _ _ _ _ _ _ _ Herr). }
    destruct (payload (Logical_Read key)) as [data|] eqn:Hp.
    + rewrite (read_loop_store _ _ _ _ _ _ _ Hp). intros Hloop Hout.
      destruct (IH _ _ Hloop Hout) as [Hin|(p & Hp' & Hent)].
      * apply store_origin in Hin as [?|Horigin]; [by left|].
        right. exists key. split; [by left|]. by exists data.
      * right. exists p. split; [by right | done].
    + rewrite (read_loop_skip _ _ _ _ _ _ Herr Hp). intros Hloop Hout.
      destruct (IH _ _ Hloop Hout) as [Hin|(p & Hp' & Hent)]; [by left|].
      right. exists p. split; [by right | done].
Qed.

(** Every entry of a returned map comes from the read at a discovered
    path: it is the scalar secret stored at that path, under the path
    itself, or a string leaf of the structured value stored there, under
    the joined key of the leaf. The map never holds the encoded blob of a
    structured value, nor a number, a boolean or a list element. *)
Theorem fetch_output_sound (fuel : nat) (range_order : gset string -> list string)
    (keys : list string) (out : vars_map) (e : option error) (tr : list event)
    (k v : string) :
  GetValues fuel range_order keys = Some ((Some out, e), tr) ->
  out !! k = Some v ->
  exists st p, walk_prefixes fuel keys init_state = Some st
    /\ p ∈ range_order (branches st)
    /\ entry_of Logical_Read k v p.
Proof.
  unfold Vault.GetValues.
  destruct (walk_prefixes fuel keys init_state) as [st|] eqn:Hwalk; [|done].
  intros [= Hloop] Hout.
  destruct (read_loop_origin _ _ _ _ _ _ k v Hloop Hout) as [Hin|(p & Hp & Hent)];
    [done|].
  by exists st, p.
Qed.

(** *** The reads of a fetch *)

Lemma read_calls_app (t1 t2 : list event) :
  read_calls (t1 ++ t2) = read_calls t1 ++ read_calls t2.
Proof. apply omap_app. Qed.

Lemma read_calls_reads (rs : list string) : read_calls (map EvRead rs) = rs.
Proof. induction rs as [|r rs IH]; [done|]. simpl. by rewrite IH. Qed.

Lemma walk_makes_no_read fuel keys st :
  walk_prefixes fuel keys init_state = Some st -> read_calls (trace st) = [].
Proof.
  intros Hrun.
  eapply (walk_prefixes_preserves Logical_List (fun s => read_calls (trace s) = []));
    [|apply Hrun|done].
  intros key s Hs _. simpl. by rewrite !read_calls_app, Hs.
Qed.

Lemma read_loop_reads (order : list string) (vars : vars_map) (tr : list event) :
  exists rs, (read_loop order vars tr).2 = tr ++ map EvRead rs
    /\ rs `prefix_of` order
    /\ ((read_loop order vars tr).1.2 = None -> rs = order).
Proof.
  revert vars tr. induction order as [|key rest IH]; intros vars tr.
  - exists []. simpl. by rewrite app_nil_r.
  - destruct (Logical_Read key).2 as [err|] eqn:Herr.
    + rewrite (read_loop_error _ _ _ _ _ _ _ Herr). exists [key]. simpl.
      split_and!; [done | by apply prefix_cons, prefix_nil | done].
    + rewrite (read_loop_step _ _ _ _ _ _ Herr).
      destruct (IH (VaultShape.read_step Logical_Read json_Marshal vars key)
                  (tr ++ [EvRead key])) as (rs & Htr & Hpre & Hall).
      exists (key :: rs). rewrite Htr. simpl. rewrite <- app_assoc.
      split_and!; [done | by apply prefix_cons | by intros ->%Hall].
Qed.

(** In a fetch whose runtime enumerates the discovered paths once each, no
    read is made before the walk is over, no path is read twice, only
    discovered paths are read, and when no error is returned every
    discovered path has been read. *)
Theorem reads_after_walk_once_each (fuel : nat) (range_order : gset string -> list string)
    (keys : list string) (st : walk_state) (res : option vars_map * option error)
    (tr : list event) :
  walk_prefixes fuel keys init_state = Some st ->
  range_order (branches st) ≡ₚ elements (branches st) ->
  GetValues fuel range_order keys = Some (res, tr) ->
  read_calls (trace st) = []
  /\ tr = trace st ++ map EvRead (read_calls tr)
  /\ NoDup (read_calls tr)
  /\ (forall p, p ∈ read_calls tr -> p ∈ branches st)
  /\ (res.2 = None -> read_calls tr ≡ₚ elements (branches st)).
Proof.
  intros Hwalk Hperm. unfold Vault.GetValues. rewrite Hwalk. intros [= Hres].
  pose proof (walk_makes_no_read _ _ _ Hwalk) as Hnone.
  destruct (read_loop_reads (range_order (branches st)) ∅ (trace st))
    as (rs & Htr & Hpre & Hall).
  rewrite Hres in Htr, Hall. simpl in Htr, Hall. subst tr.
  rewrite read_calls_app, Hnone, read_calls_reads. simpl.
  assert (NoDup (range_order (branches st))) as Hnd
    by (rewrite Hperm; apply NoDup_elements).
  destruct Hpre as [post Hpost].
  split_and!; [done | done | | |].
  - rewrite Hpost in Hnd. by apply NoDup_app in Hnd as [? _].
  - intros p Hp. apply elem_of_elements. rewrite <- Hperm, Hpost.
    apply elem_of_app. by left.
  - intros Hok. by rewrite (Hall Hok).
Qed.

End Output.

End OutputFacts.

(** * Authentication *)

Module AuthFacts.

Import Vault Auth.

(** *** Parameters *)

(** [getParameter] returns a value exactly when the map holds a non-empty
    string for the key; a key that is absent and a key set to the empty
    string both make it panic, with a message that names the key. *)
Theorem getParameter_non_empty (key : string) (params : gmap string string) :
  (forall v, getParameter key params = Returned v <-> params !! key = Some v /\ v <> "")
  /\ (getParameter key params
      = Panicked (PanicString (key +:+ " is missing from configuration"))
      <-> params !! key = None \/ params !! key = Some "").
Proof.
  unfold getParameter. destruct (params !! key) as [v'|] eqn:Hk; simpl.
  - destruct (String.eqb_spec v' "") as [->|Hne]; split.
    + intros v. split; [done | by intros [[= ->] ?]].
    + split; [by right | done].
    + intros v. split; [by intros [= ->] | by intros [[= ->] _]].
    + split; [done | by intros [?|[= ?]]].
  - split; [|split; [by left | done]].
    intros v. split; [done | by intros [? _]].
Qed.

Lemma getParameter_present (key : string) (params : gmap string string) :
  present params key ->
  exists v, getParameter key params = Returned v /\ v <> "".
Proof.
  intros (v & Hv & Hne). exists v. split; [|done].
  unfold getParameter. rewrite Hv. simpl. by destruct (String.eqb_spec v "").
Qed.

Lemma getParameter_missing (key : string) (params : gmap string string) :
  default "" (params !! key) = "" ->
  getParameter key params
  = Panicked (PanicString (key +:+ " is missing from configuration")).
Proof. intros H. unfold getParameter. by rewrite H. Qed.

Lemma getParameter_panic (key : string) (params : gmap string string) (p : panic_value) :
  getParameter key params = Panicked p ->
  p = PanicString (key +:+ " is missing from configuration").
Proof. unfold getParameter. case_match; by intros [= <-]. Qed.

Lemma one_split {A : Type} (a : A) (pre post : list A) (key : A) :
  [a] = pre ++ key :: post -> pre = [] /\ key = a.
Proof. destruct pre as [|? [|? ?]]; by intros [= -> ?]. Qed.

Lemma two_split {A : Type} (a b : A) (pre post : list A) (key : A) :
  [a; b] = pre ++ key :: post ->
  (pre = [] /\ key = a) \/ (pre = [a] /\ key = b).
Proof.
  destruct pre as [|x [|y pre]]; simpl.
  - intros [= -> _]. by left.
  - intros [= -> -> _]. by right.
  - intros [= _ _ H]. by destruct pre.
Qed.

Section Facts.

Variable Logical_Write :
  string -> string -> option fields -> option AuthSecret * option error.
Variable Logical_Read : string -> string -> option AuthSecret * option error.
Variable ReadFile : string -> string * option error.

Abbreviation authenticate := (Auth.authenticate Logical_Write Logical_Read ReadFile).

Ltac unfold_auth :=
  unfold Auth.authenticate, login, finish, bind, param, write, read, read_file,
    set_token, get_token, raise, ret, panicToError.

(** *** No panic leaves [authenticate] *)

(** Whatever the configuration and whatever the server and the file system
    answer, [authenticate] returns: a missing parameter and a login answer
    without a token end in an error, not in a panic. *)
Theorem authenticate_returns (authType : string) (params : gmap string string) (c : client) :
  exists err, (authenticate authType params c).2 = Returned err.
Proof.
  unfold_auth.
  repeat (case_match; simplify_eq/=; try by eexists);
    match goal with
    | H : getParameter _ _ = Panicked _ |- _ => by apply getParameter_panic in H
    end.
Qed.

(** *** A parameter is missing *)

(** When a parameter that the login needs is absent or empty, and those
    taken before it are set, [authenticate] returns the error that names
    that parameter, without having called the server or touched the token
    of the client. *)
Theorem missing_parameter_reported (authType : string) (params : gmap string string)
    (c : client) (pre post : list string) (key : string) :
  required authType = pre ++ key :: post ->
  Forall (present params) pre ->
  default "" (params !! key) = "" ->
  authenticate authType params c
  = (c, Returned (Some (key +:+ " is missing from configuration"))).
Proof.
  intros Hreq Hpre Hmiss. apply getParameter_missing in Hmiss.
  unfold required in Hreq. unfold_auth.
  repeat (destruct (String.eqb authType _);
    [first [ apply two_split in Hreq as [[-> ->] | [-> ->]];
             [|apply Forall_cons_1 in Hpre as [(v & -> & _)%getParameter_present _]]
           | apply one_split in Hreq as [-> ->] ];
     by rewrite Hmiss |]).
  by destruct pre.
Qed.

(** *** The token of the client *)

(** A client that already holds a token keeps it, unless the type is
    [token]: the token of the login answer is not taken. *)
Theorem preset_token_kept (authType : string) (params : gmap string string) (c : client) :
  authType <> "token" -> token c <> "" ->
  token (authenticate authType params c).1 = token c.
Proof.
  intros Htype Htok. apply String.eqb_neq in Htype, Htok.
  unfold_auth. rewrite Htype.
  repeat (case_match; simplify_eq/=; try done);
    match goal with
    | H : negb (String.eqb (token c) "") = false |- _ => by rewrite Htok in H
    end.
Qed.

(** With the type [token] the client takes the token of the configuration
    and makes one read of its own entry; the result is the error of that
    read, and the answer is not looked at. *)
Theorem token_login (params : gmap string string) (c : client) (t : string) :
  params !! "token" = Some t -> t <> "" ->
  authenticate "token" params c
  = ({| token := t; calls := calls c ++ [CallRead "/auth/token/lookup-self"] |},
     Returned (Logical_Read t "/auth/token/lookup-self").2).
Proof.
  intros Ht Hne. unfold_auth. cbn [String.eqb Ascii.eqb Bool.eqb].
  unfold getParameter. rewrite Ht. simpl.
  destruct (String.eqb_spec t "") as [|_]; [done|]. simpl.
  destruct (Logical_Read t "/auth/token/lookup-self") as [secret [e|]]; simpl; [done|].
  by destruct (String.eqb_spec t "").
Qed.

(** *** The error of the login call *)

(** For every type but [kubernetes], an error of the call to the server is
    the result of [authenticate]. *)
Theorem login_error_returned (authType : string) (params : gmap string string)
    (c : client) (e : error) :
  authType ∈ ["approle"; "app-id"; "github"; "token"; "userpass"; "cert"] ->
  Forall (present params) (required authType) ->
  (forall tok path data, (Logical_Write tok path data).2 = Some e) ->
  (forall tok path, (Logical_Read tok path).2 = Some e) ->
  (authenticate authType params c).2 = Returned (Some e).
Proof.
  intros Htype Hreq HW HR.
  assert (forall tok path data r, Logical_Write tok path data = r -> r.2 = Some e) as HW'
    by (by intros ? ? ? ? <-).
  assert (forall tok path r, Logical_Read tok path = r -> r.2 = Some e) as HR'
    by (by intros ? ? ? <-).
  repeat (apply elem_of_cons in Htype as [->|Htype]); [..|by apply elem_of_nil in Htype];
    cbn in Hreq;
    repeat (apply Forall_cons_1 in Hreq as [(? & ? & _)%getParameter_present Hreq]);
    unfold_auth; cbn [String.eqb Ascii.eqb Bool.eqb];
    repeat (case_match; simplify_eq/=; try done);
    repeat match goal with
    | H : Logical_Write _ _ _ = _ |- _ => apply HW' in H; simpl in H; simplify_eq
    | H : Logical_Read _ _ = _ |- _ => apply HR' in H; simpl in H; simplify_eq
    end; done.
Qed.

(** With the type [kubernetes], once the token file is read and the role
    is set, the result does not depend on the error of the login call: a
    client that holds a token gets no error, and a client without one gets
    no error when the answer carries a token and the nil dereference error
    when it does not. *)
Theorem kubernetes_login_error_dropped (params : gmap string string) (c : client)
    (jwt role : string) :
  ReadFile "/var/run/secrets/kubernetes.io/serviceaccount/token" = (jwt, None) ->
  params !! "role-id" = Some role -> role <> "" ->
  (authenticate "kubernetes" params c).2
  = if negb (String.eqb (token c) "") then Returned None
    else match (Logical_Write (token c) "/auth/kubernetes/login"
                  (Some [("jwt", VString jwt); ("role", VString role)])).1 with
         | Some {| Auth := Some _ |} => Returned None
         | _ => Returned (Some nil_dereference)
         end.
Proof.
  intros Hfile Hrole Hne. unfold_auth. cbn [String.eqb Ascii.eqb Bool.eqb].
  rewrite Hfile. simpl. unfold getParameter. rewrite Hrole. simpl.
  destruct (String.eqb_spec role "") as [|_]; [done|]. simpl.
  destruct (String.eqb (token c) ""); simpl; [|done].
  by destruct (Logical_Write _ _ _) as [[[[a|]]|] err].
Qed.

(** *** A type that is not known *)

(** With a type other than the seven of the [switch], the server is not
    called: a client that holds a token gets no error, and a client without
    one gets the nil dereference error. *)
Theorem unknown_type_no_login (authType : string) (params : gmap string string) (c : client) :
  authType ∉ ["approle"; "app-id"; "github"; "token"; "userpass"; "kubernetes"; "cert"] ->
  authenticate authType params c
  = (c, Returned (if negb (String.eqb (token c) "") then None else Some nil_dereference)).
Proof.
  intros Htype. repeat (apply not_elem_of_cons in Htype as [?%String.eqb_neq Htype]).
  unfold_auth. repeat (case_match; simplify_eq/=; try done).
Qed.

End Facts.

End AuthFacts.
